(** * The gateway runtime: [ServeMux] of package [runtime]

    A shallow embedding of [ServeMux] (registration with [AddHandler], [Use],
    [UseDirective], and the request path [ServeHTTP] with [respondResult]).

    Go values become Rocq values as follows.
    - [graphql.Fields] and the directive registry are Go maps keyed by strings:
      [gmap string _].  A Go [range] over a map enumerates it in an order the
      language leaves open; the order of the n-th [range] statement executed
      by a request is chosen by [rangeOrder n], about which only
      [rangeOrder_perm] is known.
    - [error] is an interface; the only thing the code asks of an error is
      whether its dynamic type is [*MiddlewareError] and what [Error()] says.
    - Middlewares, [CreateConnection], the release function it returns, the
      error observer and [graphql.Do] are calls into code outside the
      gateway.  They act on a [World], threaded through [ServeHTTP] in the
      order of the calls.  (The [http.ResponseWriter] handed to a middleware
      is part of its [World]; the model records what the gateway itself
      writes to it.)
    - [defer] pushes on a stack that is run, last in first out, when
      [ServeHTTP] returns.
    - Every call into a collaborator and every write to the response is
      logged, in order, in a trace of [Event]s; the theorems are about the
      trace of a request. *)

From stdpp Require Import base option list strings gmap fin_maps pretty sorting.
From Stdlib Require Import ZArith.

Set Default Proof Using "Type".

(** ** Types of the collaborating packages *)

(** The opaque types: [context.Context], [*grpc.ClientConn], [*graphql.Field],
    [graphql.Schema], the [interface{}] of [Result.Data], the variables
    [map[string]interface{}], [*http.Request], and the state of everything
    outside the gateway. *)
Class GoTypes := {
  Ctx : Type;
  Conn : Type;
  Field : Type;
  Schema : Type;
  Data : Type;
  Vars : Type;
  Request : Type;
  World : Type;
}.

(** [MiddlewareError], the typed failure a middleware may return. *)
Record MiddlewareError := {
  Code : string;
  Message : string;
}.

(** A Go [error] value, by dynamic type. *)
Inductive error :=
  | IsMiddlewareError (me : MiddlewareError)
  | OtherError (text : string).

(** Results of calls that return [(value, error)]. *)
Inductive result (A : Type) :=
  | Ok (a : A)
  | Err (e : error).
Arguments Ok {A} a.
Arguments Err {A} e.

(** [GraphqlError] (an alias of graphql-go's formatted error). *)
Record GraphqlError := {
  ge_Message : string;
  ge_Extensions : gmap string string;
}.

Definition http_StatusOK : Z := 200.

Section Types.
Context `{GoTypes}.

Definition Fields : Type := gmap string Field.

(** [graphql.ObjectConfig]; [graphql.NewObject] keeps the configuration. *)
Record ObjectConfig := {
  Name : string;
  oc_Fields : gmap string Field;
}.

Definition NewObject (c : ObjectConfig) : ObjectConfig := c.

Record SchemaConfig := {
  sc_Query : option ObjectConfig;
  sc_Mutation : option ObjectConfig;
}.

(** The request as decoded by [parseRequest]. *)
Record GraphqlRequest := {
  Query : string;
  Variables : Vars;
}.

Record Params := {
  p_Schema : Schema;
  RequestString : string;
  VariableValues : Vars;
  p_Context : Ctx;
}.

(** [graphql.Result]. *)
Record Result := {
  r_Data : option Data;
  Errors : list GraphqlError;
}.

Definition MiddlewareFunc : Type :=
  Ctx → Request → World → (Ctx * option error) * World.

Definition GraphQLMiddlewareFunc : Type :=
  Ctx → Request → string → World → option error * World.

Definition GraphqlErrorHandler : Type := list GraphqlError → World → World.

(** The interface [GraphqlHandler].  [CreateConnection] returns the
    connection together with its release function, or an error.  The
    field listings take [nil] or a connection. *)
Record GraphqlHandler := {
  CreateConnection : Ctx → World → result (Conn * (World → World)) * World;
  GetMutations : option Conn → gmap string Field;
  GetQueries : option Conn → gmap string Field;
}.

Record ServeMux := {
  middlewares : list MiddlewareFunc;
  graphQLMiddlewares : gmap string (gmap string GraphQLMiddlewareFunc);
  ErrorHandler : option GraphqlErrorHandler;
  handlers : list GraphqlHandler;
}.

(** What a request leaves behind, in order. *)
Inductive Event :=
  | EvMiddleware (i : nat) (ctx ctx' : Ctx) (err : option error)
  | EvCreateConnection (i : nat) (ctx : Ctx) (res : result Conn)
  | EvClose (i : nat)
  | EvNewSchema (cfg : SchemaConfig)
  | EvParseRequest
  | EvDirective (method directive : string) (err : option error)
  | EvDo (p : Params)
  | EvErrorHandler (errs : list GraphqlError)
  | EvRespondResult (res : Result)
  | EvHeaderSet (key value : string)
  | EvWriteHeader (statusCode : Z)
  | EvWrite (out : string).
End Types.

(** The functions of other packages, and of files of this package that are
    not part of the development: [r.Context()], [parseRequest],
    [graphql.NewSchema], [graphql.Do], [json.Marshal] (its error is dropped
    by the caller), [defaultGraphqlErrorHandler], the [Error()] method of
    [*MiddlewareError], and the enumeration order of [range]. *)
Class Externals `{GoTypes} := {
  Request_Context : Request → Ctx;
  parseRequest : Request → result GraphqlRequest;
  NewSchema : SchemaConfig → result Schema;
  Do : Params → World → Result * World;
  json_Marshal : Result → string;
  defaultGraphqlErrorHandler : list GraphqlError → World → World;
  MiddlewareError_Error : MiddlewareError → string;
  rangeOrder : nat → ∀ V : Type, gmap string V → list (string * V);
  rangeOrder_perm : ∀ n V (m : gmap string V), rangeOrder n V m ≡ₚ map_to_list m;
}.

(** ** [strings] *)

Fixpoint HasPrefix (s prefix : string) {struct prefix} : bool :=
  match prefix, s with
  | EmptyString, _ => true
  | String _ _, EmptyString => false
  | String c prefix', String d s' =>
      if Ascii.eqb c d then HasPrefix s' prefix' else false
  end.

(** [strings.Contains]: [substr] occurs in [s]. *)
Fixpoint Contains (s substr : string) : bool :=
  HasPrefix s substr ||
  match s with
  | EmptyString => false
  | String _ s' => Contains s' substr
  end.

Section Runtime.
Context `{Externals}.

(** [err.Error()] *)
Definition Error (e : error) : string :=
  match e with
  | IsMiddlewareError me => MiddlewareError_Error me
  | OtherError text => text
  end.

(** ** The state of one call of [ServeHTTP] *)

Record State := {
  world : World;
  deferred : list (nat * (World → World));
  ranges : nat;
  trace : list Event;
}.

(** A statement of [ServeHTTP]: it runs on the state and either yields a
    value or has executed [return] ([None]). *)
Definition M (A : Type) : Type := State → option A * State.

#[global] Instance M_ret : MRet M := λ A a st, (Some a, st).

#[global] Instance M_bind : MBind M := λ A B f c st,
  match c st with
  | (Some a, st') => f a st'
  | (None, st') => (None, st')
  end.

Definition return_ {A} : M A := λ st, (None, st).

Definition log (e : Event) : M () := λ st,
  (Some (), {| world := world st; deferred := deferred st;
               ranges := ranges st; trace := trace st ++ [e] |}).

(** A call into a collaborator. *)
Definition call {A} (f : World → A * World) : M A := λ st,
  let '(a, w') := f (world st) in
  (Some a, {| world := w'; deferred := deferred st;
              ranges := ranges st; trace := trace st |}).

(** [defer closer()], for the closer of the handler at index [i]. *)
Definition defer (i : nat) (closer : World → World) : M () := λ st,
  (Some (), {| world := world st; deferred := (i, closer) :: deferred st;
               ranges := ranges st; trace := trace st |}).

(** The enumeration of a [range] over a map. *)
Definition range {V} (m : gmap string V) : M (list (string * V)) := λ st,
  (Some (rangeOrder (ranges st) V m),
   {| world := world st; deferred := deferred st;
      ranges := S (ranges st); trace := trace st |}).

(** [for k, v := range src { m[k] = v }], along the enumeration [kvs]. *)
Fixpoint assign {V} (kvs : list (string * V)) (m : gmap string V) : gmap string V :=
  match kvs with
  | [] => m
  | (k, v) :: kvs' => assign kvs' (<[k := v]> m)
  end.

(** ** Registration *)

Definition NewServeMux (ms : list MiddlewareFunc) : ServeMux :=
  {| middlewares := ms;
     handlers := [];
     graphQLMiddlewares := ∅;
     ErrorHandler := None |}.

Definition validateHandler (s : ServeMux) (h : GraphqlHandler) : option error :=
  let queries := GetQueries h None in
  let mutations := GetMutations h None in
  if decide (size queries = 0 ∧ size mutations = 0) then None else
  let schemaConfig := {| sc_Query := None; sc_Mutation := None |} in
  let schemaConfig :=
    if decide (0 < size queries) then
      {| sc_Query := Some (NewObject {| Name := "Query"; oc_Fields := queries |});
         sc_Mutation := sc_Mutation schemaConfig |}
    else schemaConfig in
  let schemaConfig :=
    if decide (0 < size mutations) then
      {| sc_Query := sc_Query schemaConfig;
         sc_Mutation := Some (NewObject {| Name := "Mutation"; oc_Fields := mutations |}) |}
    else schemaConfig in
  match NewSchema schemaConfig with
  | Err err => Some (OtherError ("Schema validation error: " +:+ Error err))
  | Ok _ => None
  end.

(** [AddHandler] returns the mux as the call leaves it, and the error. *)
Definition AddHandler (s : ServeMux) (h : GraphqlHandler) : ServeMux * option error :=
  match validateHandler s h with
  | Some err => (s, Some err)
  | None =>
      ({| middlewares := middlewares s;
          graphQLMiddlewares := graphQLMiddlewares s;
          ErrorHandler := ErrorHandler s;
          handlers := handlers s ++ [h] |}, None)
  end.

Definition Use (s : ServeMux) (ms : list MiddlewareFunc) : ServeMux :=
  {| middlewares := middlewares s ++ ms;
     graphQLMiddlewares := graphQLMiddlewares s;
     ErrorHandler := ErrorHandler s;
     handlers := handlers s |}.

Definition UseDirective (s : ServeMux) (method directive : string)
    (ms : GraphQLMiddlewareFunc) : ServeMux :=
  let directives :=
    match graphQLMiddlewares s !! method with
    | Some directives => directives
    | None => ∅
    end in
  let directives := <[directive := ms]> directives in
  {| middlewares := middlewares s;
     graphQLMiddlewares := <[method := directives]> (graphQLMiddlewares s);
     ErrorHandler := ErrorHandler s;
     handlers := handlers s |}.

(** ** The request path *)

Definition respondResult (result : Result) : M () :=
  log (EvRespondResult result);;
  let out := json_Marshal result in
  log (EvHeaderSet "Content-Type" "application/json");;
  log (EvHeaderSet "Content-Length" (pretty (String.length out)));;
  log (EvWriteHeader http_StatusOK);;
  log (EvWrite out).

(** [for _, m := range s.middlewares], from the middleware at index [i]. *)
Fixpoint middlewareLoop (i : nat) (ms : list MiddlewareFunc) (r : Request)
    (ctx : Ctx) : M Ctx :=
  match ms with
  | [] => mret ctx
  | m :: ms' =>
      '(ctx', err) ← call (m ctx r);
      log (EvMiddleware i ctx ctx' err);;
      match err with
      | Some err =>
          let ge :=
            match err with
            | IsMiddlewareError me =>
                {| ge_Message := Message me;
                   ge_Extensions := {[ "code" := Code me ]} |}
            | OtherError _ =>
                {| ge_Message := Error err;
                   ge_Extensions := {[ "code" := "MIDDLEWARE_ERROR" ]} |}
            end in
          respondResult {| r_Data := None; Errors := [ge] |};;
          return_
      | None => middlewareLoop (S i) ms' r ctx'
      end
  end.

(** [for _, h := range s.handlers], from the handler at index [i]. *)
Fixpoint handlerLoop (i : nat) (hs : list GraphqlHandler) (ctx : Ctx)
    (queries mutations : gmap string Field)
    : M (gmap string Field * gmap string Field) :=
  match hs with
  | [] => mret (queries, mutations)
  | h :: hs' =>
      res ← call (CreateConnection h ctx);
      match res with
      | Err err =>
          log (EvCreateConnection i ctx (Err err));;
          respondResult
            {| r_Data := None;
               Errors :=
                 [ {| ge_Message := "Failed to create grpc connection: " +:+ Error err;
                      ge_Extensions := {[ "code" := "GRPC_CONNECT_ERROR" ]} |} ] |};;
          return_
      | Ok (c, closer) =>
          log (EvCreateConnection i ctx (Ok c));;
          defer i closer;;
          kvs ← range (GetQueries h (Some c));
          let queries := assign kvs queries in
          kvs ← range (GetMutations h (Some c));
          let mutations := assign kvs mutations in
          handlerLoop (S i) hs' ctx queries mutations
      end
  end.

(** [for _, fn := range directives], along the enumeration [fns]. *)
Fixpoint directiveFns (method : string) (fns : list (string * GraphQLMiddlewareFunc))
    (ctx : Ctx) (r : Request) : M () :=
  match fns with
  | [] => mret ()
  | (directive, fn) :: fns' =>
      err ← call (fn ctx r method);
      log (EvDirective method directive err);;
      match err with
      | Some err =>
          let ge :=
            match err with
            | IsMiddlewareError me =>
                {| ge_Message := Message me;
                   ge_Extensions := {[ "code" := Code me ]} |}
            | OtherError _ =>
                {| ge_Message := Error err;
                   ge_Extensions := {[ "code" := "DIRECTIVE_MIDDLEWARE_ERROR" ]} |}
            end in
          respondResult {| r_Data := None; Errors := [ge] |};;
          return_
      | None => directiveFns method fns' ctx r
      end
  end.

(** [for _, method := range methodNames] *)
Fixpoint directiveLoop (s : ServeMux) (ctx : Ctx) (r : Request)
    (req : GraphqlRequest) (methodNames : list string) : M () :=
  match methodNames with
  | [] => mret ()
  | method :: methodNames' =>
      (if negb (Contains (Query req) method) then mret ()
       else
         match graphQLMiddlewares s !! method with
         | Some directives =>
             fns ← range directives;
             directiveFns method fns ctx r
         | None => mret ()
         end);;
      directiveLoop s ctx r req methodNames'
  end.

(** The statements of [ServeHTTP]. *)
Definition ServeHTTP_body (s : ServeMux) (r : Request) : M () :=
  ctx ← middlewareLoop 0 (middlewares s) r (Request_Context r);
  '(queries, mutations) ← handlerLoop 0 (handlers s) ctx ∅ ∅;
  let schemaConfig := {| sc_Query := None; sc_Mutation := None |} in
  let schemaConfig :=
    if decide (0 < size queries) then
      {| sc_Query := Some (NewObject {| Name := "Query"; oc_Fields := queries |});
         sc_Mutation := sc_Mutation schemaConfig |}
    else schemaConfig in
  let schemaConfig :=
    if decide (0 < size mutations) then
      {| sc_Query := sc_Query schemaConfig;
         sc_Mutation := Some (NewObject {| Name := "Mutation"; oc_Fields := mutations |}) |}
    else schemaConfig in
  log (EvNewSchema schemaConfig);;
  match NewSchema schemaConfig with
  | Err err =>
      respondResult
        {| r_Data := None;
           Errors :=
             [ {| ge_Message := "Failed to build schema: " +:+ Error err;
                  ge_Extensions := {[ "code" := "SCHEMA_GENERATION_ERROR" ]} |} ] |};;
      return_
  | Ok schema =>
      log EvParseRequest;;
      match parseRequest r with
      | Err err =>
          respondResult
            {| r_Data := None;
               Errors :=
                 [ {| ge_Message := "Failed to parse request: " +:+ Error err;
                      ge_Extensions := {[ "code" := "REQUEST_PARSE_ERROR" ]} |} ] |};;
          return_
      | Ok req =>
          qs ← range queries;
          ms ← range mutations;
          let methodNames := qs.*1 ++ ms.*1 in
          directiveLoop s ctx r req methodNames;;
          let params :=
            {| p_Schema := schema;
               RequestString := Query req;
               VariableValues := Variables req;
               p_Context := ctx |} in
          result ← call (Do params);
          log (EvDo params);;
          (if decide (0 < length (Errors result)) then
             log (EvErrorHandler (Errors result));;
             match ErrorHandler s with
             | Some handler => call (λ w, ((), handler (Errors result) w))
             | None => call (λ w, ((), defaultGraphqlErrorHandler (Errors result) w))
             end
           else mret ());;
          respondResult result
      end
  end.

(** The deferred closers run when the function returns, last first. *)
Fixpoint runDeferred (ds : list (nat * (World → World))) (w : World)
    (tr : list Event) : World * list Event :=
  match ds with
  | [] => (w, tr)
  | (i, closer) :: ds' => runDeferred ds' (closer w) (tr ++ [EvClose i])
  end.

(** [ServeHTTP]: the world after the request, and its trace. *)
Definition ServeHTTP (s : ServeMux) (r : Request) (w : World) : World * list Event :=
  let '(_, st) :=
    ServeHTTP_body s r {| world := w; deferred := []; ranges := 0; trace := [] |} in
  runDeferred (deferred st) (world st) (trace st).

End Runtime.

(** How often [x] occurs in [l]. *)
Definition occurrences {A} `{EqDecision A} (x : A) (l : list A) : nat :=
  length (filter (x =.) l).

(** ** Reading a trace *)

Section Traces.
Context `{Externals}.

(** The number of events of a trace that satisfy [P]. *)
Definition count (P : Event → bool) (tr : list Event) : nat :=
  length (List.filter P tr).

Definition isMiddleware (i : nat) (e : Event) : bool :=
  match e with EvMiddleware j _ _ _ => Nat.eqb i j | _ => false end.

(** An attempt of the handler at index [i] to acquire its connection. *)
Definition isAttempt (i : nat) (e : Event) : bool :=
  match e with EvCreateConnection j _ _ => Nat.eqb i j | _ => false end.

(** A successful one. *)
Definition isAcquired (i : nat) (e : Event) : bool :=
  match e with EvCreateConnection j _ (Ok _) => Nat.eqb i j | _ => false end.

(** The release function of the handler at index [i] is invoked. *)
Definition isClose (i : nat) (e : Event) : bool :=
  match e with EvClose j => Nat.eqb i j | _ => false end.

Definition isRespondResult (e : Event) : bool :=
  match e with EvRespondResult _ => true | _ => false end.

Definition isWriteHeader (e : Event) : bool :=
  match e with EvWriteHeader _ => true | _ => false end.

Definition isWrite (e : Event) : bool :=
  match e with EvWrite _ => true | _ => false end.

Definition isHeaderSet (key : string) (e : Event) : bool :=
  match e with EvHeaderSet k _ => String.eqb key k | _ => false end.



Definition isDo (e : Event) : bool :=
  match e with EvDo _ => true | _ => false end.

(** Some directive middleware runs. *)
Definition isDirectiveCall (e : Event) : bool :=
  match e with EvDirective _ _ _ => true | _ => false end.

(** The directive middleware registered as [(method, directive)] runs. *)
Definition isDirective (method directive : string) (e : Event) : bool :=
  match e with
  | EvDirective m d _ => String.eqb method m && String.eqb directive d
  | _ => false
  end.

(** [e1] occurs in the trace strictly before [e2]. *)
Definition before (e1 e2 : Event) (tr : list Event) : Prop :=
  ∃ tr1 tr2 tr3, tr = tr1 ++ e1 :: tr2 ++ e2 :: tr3.

(** The calls of global middlewares: index, context given, context
    returned, error. *)
Definition middlewareCalls (tr : list Event) : list (nat * Ctx * Ctx * option error) :=
  omap (λ e, match e with
             | EvMiddleware i ctx ctx' err => Some (i, ctx, ctx', err)
             | _ => None
             end) tr.


(** The two root types, with the listing that feeds each. *)
Inductive Root := QueryRoot | MutationRoot.

Definition listing (root : Root) : GraphqlHandler → option Conn → gmap string Field :=
  match root with
  | QueryRoot => GetQueries
  | MutationRoot => GetMutations
  end.

Definition rootOf (root : Root) (cfg : SchemaConfig) : option ObjectConfig :=
  match root with
  | QueryRoot => sc_Query cfg
  | MutationRoot => sc_Mutation cfg
  end.

(** *** The pieces a trace is made of *)

(** Middlewares [i], [i+1], ... succeed in turn; the first is given [ctx]
    and each next one the context its predecessor returned. *)
Fixpoint middlewareEvents (i : nat) (ctx : Ctx) (ctxs : list Ctx) : list Event :=
  match ctxs with
  | [] => []
  | ctx' :: ctxs' => EvMiddleware i ctx ctx' None :: middlewareEvents (S i) ctx' ctxs'
  end.

Fixpoint lastCtx (ctx : Ctx) (ctxs : list Ctx) : Ctx :=
  match ctxs with
  | [] => ctx
  | ctx' :: ctxs' => lastCtx ctx' ctxs'
  end.

(** Handlers [i], [i+1], ... acquire the connections [cs]. *)
Fixpoint connectionEvents (i : nat) (ctx : Ctx) (cs : list Conn) : list Event :=
  match cs with
  | [] => []
  | c :: cs' => EvCreateConnection i ctx (Ok c) :: connectionEvents (S i) ctx cs'
  end.

(** The closers of handlers [n-1], ..., [0] run. *)
Definition closeEvents (n : nat) : list Event := EvClose <$> reverse (seq 0 n).

Definition respondEvents (result : Result) : list Event :=
  [ EvRespondResult result;
    EvHeaderSet "Content-Type" "application/json";
    EvHeaderSet "Content-Length" (pretty (String.length (json_Marshal result)));
    EvWriteHeader http_StatusOK;
    EvWrite (json_Marshal result) ].

Definition directiveEvents (calls : list (string * string)) : list Event :=
  (λ c, EvDirective c.1 c.2 None) <$> calls.

(** The envelope of a failed middleware, with the code used for an error
    that is not a [*MiddlewareError]. *)
Definition middlewareEnvelope (generic : string) (err : error) : GraphqlError :=
  match err with
  | IsMiddlewareError me =>
      {| ge_Message := Message me; ge_Extensions := {[ "code" := Code me ]} |}
  | OtherError _ =>
      {| ge_Message := Error err; ge_Extensions := {[ "code" := generic ]} |}
  end.

(** The envelope of the other pipeline failures. *)
Definition pipelineEnvelope (what code : string) (err : error) : GraphqlError :=
  {| ge_Message := what +:+ Error err; ge_Extensions := {[ "code" := code ]} |}.

Definition errorResult (ge : GraphqlError) : Result :=
  {| r_Data := None; Errors := [ge] |}.

(** The field map merged from the listings of the handlers, each with the
    connection it acquired; a later listing overwrites an earlier one. *)
Fixpoint merged (list_fields : GraphqlHandler → option Conn → gmap string Field)
    (acc : gmap string Field) (hcs : list (GraphqlHandler * Conn)) : gmap string Field :=
  match hcs with
  | [] => acc
  | (h, c) :: hcs' => merged list_fields (list_fields h (Some c) ∪ acc) hcs'
  end.

Definition schemaConfigFor (queries mutations : gmap string Field) : SchemaConfig :=
  {| sc_Query :=
       if decide (0 < size queries)
       then Some (NewObject {| Name := "Query"; oc_Fields := queries |}) else None;
     sc_Mutation :=
       if decide (0 < size mutations)
       then Some (NewObject {| Name := "Mutation"; oc_Fields := mutations |}) else None |}.

(** The fields of a root type of a schema configuration. *)
Definition rootFields (root : option ObjectConfig) : gmap string Field :=
  match root with
  | Some o => oc_Fields o
  | None => ∅
  end.

(** [UseDirective] registered a middleware as [(method, directive)]. *)
Definition registered (s : ServeMux) (method directive : string) : bool :=
  match graphQLMiddlewares s !! method with
  | Some directives => bool_decide (is_Some (directives !! directive))
  | None => false
  end.

(** [names] is a dispatch list for the two merged maps: the names of
    [queries] in some order, then those of [mutations] in some order. *)
Definition methodNamesOf (queries mutations : gmap string Field)
    (names : list string) : Prop :=
  ∃ qs ms, qs ≡ₚ (map_to_list queries).*1 ∧ ms ≡ₚ (map_to_list mutations).*1 ∧
    names = qs ++ ms.

(** [Dispatch s query names calls]: going through [names], for each name that
    occurs in [query] and has directives registered, all of them, in some
    order, make up [calls]. *)
Inductive Dispatch (s : ServeMux) (query : string)
    : list string → list (string * string) → Prop :=
  | Dispatch_nil : Dispatch s query [] []
  | Dispatch_skip method names calls :
      Contains query method = false ∨ graphQLMiddlewares s !! method = None →
      Dispatch s query names calls →
      Dispatch s query (method :: names) calls
  | Dispatch_run method names directives ds calls :
      Contains query method = true →
      graphQLMiddlewares s !! method = Some directives →
      ds ≡ₚ (map_to_list directives).*1 →
      Dispatch s query names calls →
      Dispatch s query (method :: names) ((pair method <$> ds) ++ calls).

(** The traces of [ServeHTTP], by the way the request ends. *)
Inductive Run (s : ServeMux) (r : Request) : list Event → Prop :=
  | Run_middleware_error ctxs ctx' err :
      length ctxs < length (middlewares s) →
      Run s r
        (middlewareEvents 0 (Request_Context r) ctxs ++
         EvMiddleware (length ctxs) (lastCtx (Request_Context r) ctxs) ctx' (Some err) ::
         respondEvents (errorResult (middlewareEnvelope "MIDDLEWARE_ERROR" err)))
  | Run_connect_error ctxs cs err :
      length ctxs = length (middlewares s) →
      length cs < length (handlers s) →
      Run s r
        (middlewareEvents 0 (Request_Context r) ctxs ++
         connectionEvents 0 (lastCtx (Request_Context r) ctxs) cs ++
         EvCreateConnection (length cs) (lastCtx (Request_Context r) ctxs) (Err err) ::
         respondEvents
           (errorResult
              (pipelineEnvelope "Failed to create grpc connection: "
                 "GRPC_CONNECT_ERROR" err)) ++
         closeEvents (length cs))
  | Run_schema_error ctxs cs cfg err :
      length ctxs = length (middlewares s) →
      length cs = length (handlers s) →
      cfg = schemaConfigFor (merged GetQueries ∅ (zip (handlers s) cs))
                            (merged GetMutations ∅ (zip (handlers s) cs)) →
      NewSchema cfg = Err err →
      Run s r
        (middlewareEvents 0 (Request_Context r) ctxs ++
         connectionEvents 0 (lastCtx (Request_Context r) ctxs) cs ++
         EvNewSchema cfg ::
         respondEvents
           (errorResult
              (pipelineEnvelope "Failed to build schema: "
                 "SCHEMA_GENERATION_ERROR" err)) ++
         closeEvents (length cs))
  | Run_parse_error ctxs cs cfg schema err :
      length ctxs = length (middlewares s) →
      length cs = length (handlers s) →
      cfg = schemaConfigFor (merged GetQueries ∅ (zip (handlers s) cs))
                            (merged GetMutations ∅ (zip (handlers s) cs)) →
      NewSchema cfg = Ok schema →
      parseRequest r = Err err →
      Run s r
        (middlewareEvents 0 (Request_Context r) ctxs ++
         connectionEvents 0 (lastCtx (Request_Context r) ctxs) cs ++
         EvNewSchema cfg :: EvParseRequest ::
         respondEvents
           (errorResult
              (pipelineEnvelope "Failed to parse request: "
                 "REQUEST_PARSE_ERROR" err)) ++
         closeEvents (length cs))
  | Run_directive_error ctxs cs cfg schema req names calls method directive calls' err :
      length ctxs = length (middlewares s) →
      length cs = length (handlers s) →
      cfg = schemaConfigFor (merged GetQueries ∅ (zip (handlers s) cs))
                            (merged GetMutations ∅ (zip (handlers s) cs)) →
      NewSchema cfg = Ok schema →
      parseRequest r = Ok req →
      methodNamesOf (merged GetQueries ∅ (zip (handlers s) cs))
                    (merged GetMutations ∅ (zip (handlers s) cs)) names →
      Dispatch s (Query req) names (calls ++ (method, directive) :: calls') →
      Run s r
        (middlewareEvents 0 (Request_Context r) ctxs ++
         connectionEvents 0 (lastCtx (Request_Context r) ctxs) cs ++
         EvNewSchema cfg :: EvParseRequest ::
         directiveEvents calls ++
         EvDirective method directive (Some err) ::
         respondEvents
           (errorResult (middlewareEnvelope "DIRECTIVE_MIDDLEWARE_ERROR" err)) ++
         closeEvents (length cs))
  | Run_executed ctxs cs cfg schema req names calls result :
      length ctxs = length (middlewares s) →
      length cs = length (handlers s) →
      cfg = schemaConfigFor (merged GetQueries ∅ (zip (handlers s) cs))
                            (merged GetMutations ∅ (zip (handlers s) cs)) →
      NewSchema cfg = Ok schema →
      parseRequest r = Ok req →
      methodNamesOf (merged GetQueries ∅ (zip (handlers s) cs))
                    (merged GetMutations ∅ (zip (handlers s) cs)) names →
      Dispatch s (Query req) names calls →
      Run s r
        (middlewareEvents 0 (Request_Context r) ctxs ++
         connectionEvents 0 (lastCtx (Request_Context r) ctxs) cs ++
         EvNewSchema cfg :: EvParseRequest ::
         directiveEvents calls ++
         EvDo {| p_Schema := schema;
                 RequestString := Query req;
                 VariableValues := Variables req;
                 p_Context := lastCtx (Request_Context r) ctxs |} ::
         (if decide (0 < length (Errors result))
          then [EvErrorHandler (Errors result)] else []) ++
         respondEvents result ++
         closeEvents (length cs)).

End Traces.

(** ** More ways to read the gateway and its traces *)

Section Observing.
Context `{Externals}.

(** The middleware registered as [(method, directive)], if any: the lookup
    [s.graphQLMiddlewares[method][directive]]. *)
Definition directiveOf (s : ServeMux) (method directive : string)
    : option GraphQLMiddlewareFunc :=
  graphQLMiddlewares s !! method ≫= (.!! directive).

(** [AddHandler] accepts the handler. *)
Definition accepted (s : ServeMux) (h : GraphqlHandler) : bool :=
  match validateHandler s h with
  | None => true
  | Some _ => false
  end.

(** [AddHandler] for each handler of [hs] in turn, whatever it returns. *)
Definition AddHandlers (s : ServeMux) (hs : list GraphqlHandler) : ServeMux :=
  foldl (λ s h, (AddHandler s h).1) s hs.



(** The step of [ServeHTTP] an event comes from, in the order of the
    source: middlewares, connections, schema, request, directives,
    execution, error observer, response, deferred closers. *)
Definition stage (e : Event) : nat :=
  match e with
  | EvMiddleware _ _ _ _ => 0
  | EvCreateConnection _ _ _ => 1
  | EvNewSchema _ => 2
  | EvParseRequest => 3
  | EvDirective _ _ _ => 4
  | EvDo _ => 5
  | EvErrorHandler _ => 6
  | EvRespondResult _ | EvHeaderSet _ _ | EvWriteHeader _ | EvWrite _ => 7
  | EvClose _ => 8
  end.



(** The context the middleware calls of a trace end with: the one the last
    call returned, or [r.Context()] when there is none. *)
Definition finalContext (r : Request) (tr : list Event) : Ctx :=
  foldl (λ _ call, call.1.2) (Request_Context r) (middlewareCalls tr).

(** The middleware loop on its own, without the bookkeeping: the context
    after the last middleware or the first error, and the world then. *)
Fixpoint middlewareOutcome (ms : list MiddlewareFunc) (r : Request) (ctx : Ctx)
    (w : World) : result Ctx * World :=
  match ms with
  | [] => (Ok ctx, w)
  | m :: ms' =>
      let '((ctx', err), w') := m ctx r w in
      match err with
      | Some err => (Err err, w')
      | None => middlewareOutcome ms' r ctx' w'
      end
  end.

(** The connection loop on its own: the first error if any, the world
    then, and the closers deferred so far, last first. *)
Fixpoint connectOutcome (hs : list GraphqlHandler) (ctx : Ctx) (w : World)
    (closers : list (World → World)) : option error * World * list (World → World) :=
  match hs with
  | [] => (None, w, closers)
  | h :: hs' =>
      match CreateConnection h ctx w with
      | (Ok (_, closer), w') => connectOutcome hs' ctx w' (closer :: closers)
      | (Err err, w') => (Some err, w', closers)
      end
  end.

End Observing.

(** ** A small gateway to run

    Contexts are lists of tags, connections are numbers, a field is the name
    of the service that resolves it, a request is its body, and the world is
    the list of what the collaborators did.  Here [parseRequest] rejects the
    empty body, [NewSchema] wants a Query root (as graphql-go does), and
    [range] follows [map_to_list]. *)
Module Demo.

#[local] Instance types : GoTypes :=
  {| Ctx := list string;
     Conn := nat;
     Field := string;
     Schema := list string;
     Data := string;
     Vars := ();
     Request := string;
     World := list string |}.

#[local] Instance externals : Externals :=
  {| Request_Context := λ _, [];
     parseRequest := λ body : string,
       if decide (body = "")
       then Err (OtherError "unexpected end of JSON input")
       else Ok {| Query := body; Variables := () |};
     NewSchema := λ cfg,
       match sc_Query cfg with
       | None => Err (OtherError "Schema query must be Object Type but got: nil.")
       | Some query => Ok (map_to_list (oc_Fields query)).*1
       end;
     Do := λ p w, ({| r_Data := Some (RequestString p); Errors := [] |}, w ++ ["Do"]);
     json_Marshal := λ res, "errors: " +:+ pretty (length (Errors res));
     defaultGraphqlErrorHandler := λ _ w, w;
     MiddlewareError_Error := λ me, Code me +:+ ": " +:+ Message me;
     rangeOrder := λ _ V m, map_to_list m;
     rangeOrder_perm := λ _ V m, reflexivity (map_to_list m) |}.

(** Handlers. *)
Definition starwars : GraphqlHandler :=
  {| CreateConnection := λ _ w, (Ok (1, λ w, w ++ ["close 1"]), w ++ ["dial 1"]);
     GetQueries := λ _, {[ "hello" := "starwars"; "search" := "starwars" ]};
     GetMutations := λ _, {[ "create" := "starwars" ]} |}.

Definition greeter : GraphqlHandler :=
  {| CreateConnection := λ _ w, (Ok (2, λ w, w ++ ["close 2"]), w ++ ["dial 2"]);
     GetQueries := λ _, {[ "hello" := "greeter" ]};
     GetMutations := λ _, {[ "create" := "greeter" ]} |}.

Definition unreachable : GraphqlHandler :=
  {| CreateConnection := λ _ w, (Err (OtherError "dial refused"), w ++ ["dial 3"]);
     GetQueries := λ _, {[ "status" := "unreachable" ]};
     GetMutations := λ _, ∅ |}.

(** [ping] is a query and a mutation. *)
Definition pinger : GraphqlHandler :=
  {| CreateConnection := λ _ w, (Ok (4, λ w, w ++ ["close 4"]), w ++ ["dial 4"]);
     GetQueries := λ _, {[ "ping" := "pinger" ]};
     GetMutations := λ _, {[ "ping" := "pinger" ]} |}.

Definition fieldless : GraphqlHandler :=
  {| CreateConnection := λ _ w, (Ok (5, λ w, w), w);
     GetQueries := λ _, ∅;
     GetMutations := λ _, ∅ |}.

Definition writeOnly : GraphqlHandler :=
  {| CreateConnection := λ _ w, (Ok (6, λ w, w), w);
     GetQueries := λ _, ∅;
     GetMutations := λ _, {[ "create" := "writeOnly" ]} |}.

(** Middlewares. *)
Definition tag (t : string) : MiddlewareFunc :=
  λ ctx _ w, ((ctx ++ [t], None), w ++ ["tag " +:+ t]).

Definition unauthorized : MiddlewareFunc :=
  λ ctx _ w,
    ((ctx, Some (IsMiddlewareError {| Code := "UNAUTHORIZED"; Message := "no token" |})),
     w ++ ["unauthorized"]).

Definition allow : GraphQLMiddlewareFunc :=
  λ _ _ method w, (None, w ++ ["allow " +:+ method]).

Definition deny : GraphQLMiddlewareFunc :=
  λ _ _ method w, (Some (OtherError "denied"), w ++ ["deny " +:+ method]).

(** Gateways. *)
Definition register (s : ServeMux) (hs : list GraphqlHandler) : ServeMux :=
  foldl (λ s h, (AddHandler s h).1) s hs.

Definition oneHandler : ServeMux := register (NewServeMux []) [starwars].

Definition twoHandlers : ServeMux := register (NewServeMux []) [starwars; greeter].

Definition secondFails : ServeMux :=
  register (NewServeMux []) [starwars; unreachable; greeter].


Definition guarded : ServeMux :=
  register (NewServeMux [tag "a"; unauthorized; tag "c"]) [starwars].

Definition searchAllowed : ServeMux := UseDirective oneHandler "search" "auth" allow.


Definition pingAllowed : ServeMux :=
  UseDirective (register (NewServeMux []) [pinger]) "ping" "auth" allow.

Definition pingDenied : ServeMux :=
  UseDirective (register (NewServeMux []) [pinger]) "ping" "auth" deny.


Definition fieldlessOnly : ServeMux := register (NewServeMux []) [fieldless].

(** The trace of a request with body [body], from the empty world. *)
Definition traceOf (s : ServeMux) (body : string) : list Event :=
  (ServeHTTP s body []).2.

End Demo.

(** * Proofs *)

(** ** Strings *)

Lemma append_String (c : Ascii.ascii) (s t : string) :
  String c s +:+ t = String c (s +:+ t).
Proof. reflexivity. Qed.

Lemma append_empty (t : string) : "" +:+ t = t.
Proof. reflexivity. Qed.


Lemma HasPrefix_app (p t : string) : HasPrefix (p +:+ t) p = true.
Proof.
  induction p as [|c p IH]; [done|].
  rewrite append_String; simpl. by rewrite Ascii.eqb_refl.
Qed.

Lemma HasPrefix_inv (s p : string) :
  HasPrefix s p = true → ∃ t, s = p +:+ t.
Proof.
  revert s; induction p as [|c p IH]; intros s Hs; simpl in *.
  - by exists s.
  - destruct s as [|d s]; [done|].
    destruct (Ascii.eqb c d) eqn:Hcd; [|done].
    apply Ascii.eqb_eq in Hcd as ->.
    destruct (IH _ Hs) as [t ->]. by exists t.
Qed.

(** [Contains] is the substring test. *)
Lemma Contains_spec (s substr : string) :
  Contains s substr = true ↔ ∃ pre post, s = pre +:+ substr +:+ post.
Proof.
  split.
  - induction s as [|c s IH]; simpl; intros Hc.
    + rewrite orb_false_r in Hc.
      destruct (HasPrefix_inv _ _ Hc) as [t Ht]. by exists "", t.
    + apply orb_true_iff in Hc as [Hc|Hc].
      * destruct (HasPrefix_inv _ _ Hc) as [t Ht]. by exists "", t.
      * destruct (IH Hc) as (pre & post & ->). by exists (String c pre), post.
  - intros (pre & post & ->).
    induction pre as [|c pre IH].
    + rewrite append_empty.
      destruct (substr +:+ post) eqn:E; simpl;
        rewrite <- E, HasPrefix_app; done.
    + rewrite append_String; simpl. rewrite IH. by rewrite orb_true_r.
Qed.

(** ** Occurrences *)

Lemma occurrences_app {A} `{EqDecision A} (x : A) (l1 l2 : list A) :
  occurrences x (l1 ++ l2) = occurrences x l1 + occurrences x l2.
Proof. unfold occurrences. by rewrite filter_app, length_app. Qed.

Lemma occurrences_cons {A} `{EqDecision A} (x y : A) (l : list A) :
  occurrences x (y :: l) = (if decide (x = y) then 1 else 0) + occurrences x l.
Proof.
  unfold occurrences. destruct (decide (x = y)) as [->|Hne].
  - by rewrite filter_cons_True.
  - by rewrite filter_cons_False.
Qed.

Lemma occurrences_not_elem {A} `{EqDecision A} (x : A) (l : list A) :
  x ∉ l → occurrences x l = 0.
Proof.
  induction l as [|y l IH]; intros Hx; [done|].
  apply not_elem_of_cons in Hx as [Hne Hx].
  rewrite occurrences_cons, decide_False, IH; done.
Qed.

Lemma occurrences_NoDup {A} `{EqDecision A} (x : A) (l : list A) :
  NoDup l → x ∈ l → occurrences x l = 1.
Proof.
  induction 1 as [|y l Hy Hnd IH]; intros Hx; [by apply elem_of_nil in Hx|].
  rewrite occurrences_cons. apply elem_of_cons in Hx as [->|Hx].
  - by rewrite decide_True, occurrences_not_elem.
  - rewrite decide_False, IH; [done..|]. by intros ->.
Qed.

Lemma occurrences_pos {A} `{EqDecision A} (x : A) (l : list A) :
  0 < occurrences x l ↔ x ∈ l.
Proof.
  split.
  - intros Hpos. destruct (decide (x ∈ l)) as [|Hx]; [done|].
    rewrite occurrences_not_elem in Hpos by done. lia.
  - intros (l1 & l2 & ->)%list_elem_of_split.
    rewrite occurrences_app, occurrences_cons, decide_True by done. lia.
Qed.

Lemma occurrences_Permutation {A} `{EqDecision A} (x : A) (l1 l2 : list A) :
  l1 ≡ₚ l2 → occurrences x l1 = occurrences x l2.
Proof. unfold occurrences. by intros ->. Qed.

Lemma occurrences_fmap_pair {A B} `{EqDecision A, EqDecision B}
    (a a' : A) (b : B) (l : list B) :
  occurrences (a, b) (pair a' <$> l) =
    if decide (a = a') then occurrences b l else 0.
Proof.
  induction l as [|b' l IH]; [by case_decide|].
  rewrite fmap_cons, !occurrences_cons, IH.
  repeat case_decide; simplify_eq; done.
Qed.

(** The names of a map, in any order, hold each name of the map once. *)
Lemma occurrences_keys {V} (m : gmap string V) (name : string) (l : list string) :
  l ≡ₚ (map_to_list m).*1 →
  occurrences name l = if decide (is_Some (m !! name)) then 1 else 0.
Proof.
  intros Hl. rewrite (occurrences_Permutation _ _ _ Hl).
  case_decide as Hin.
  - apply occurrences_NoDup; [apply NoDup_fst_map_to_list|].
    destruct Hin as [v Hv]. apply list_elem_of_fmap. exists (name, v).
    split; [done|]. by apply elem_of_map_to_list.
  - apply occurrences_not_elem.
    intros ([k v] & -> & Hkv%elem_of_map_to_list)%list_elem_of_fmap.
    apply Hin. by exists v.
Qed.

Section Proofs.
Context `{Externals}.

(** ** Assignments into a map *)

Lemma assign_lookup {V} (kvs : list (string * V)) (m : gmap string V) k :
  NoDup kvs.*1 →
  assign kvs m !! k =
    match list_to_map (M := gmap string V) kvs !! k with
    | Some v => Some v
    | None => m !! k
    end.
Proof.
  revert m; induction kvs as [|[k' v] kvs IH]; intros m Hnd; simpl.
  - by rewrite lookup_empty.
  - apply NoDup_cons in Hnd as [Hk' Hnd]. rewrite IH; [|done].
    destruct (decide (k' = k)) as [->|Hne].
    + rewrite lookup_insert_eq.
      rewrite (not_elem_of_list_to_map_1 _ k); [|done].
      by rewrite lookup_insert_eq.
    + by rewrite !lookup_insert_ne.
Qed.

(** A [range] loop that assigns every entry of [src] into [m] yields
    [src ∪ m], whatever the order of the enumeration. *)
Lemma assign_union {V} (kvs : list (string * V)) (src m : gmap string V) :
  kvs ≡ₚ map_to_list src → assign kvs m = src ∪ m.
Proof.
  intros Hp. apply map_eq; intros k.
  assert (NoDup kvs.*1) as Hnd by (rewrite Hp; apply NoDup_fst_map_to_list).
  rewrite assign_lookup by done.
  rewrite (list_to_map_proper kvs (map_to_list src)) by done.
  rewrite list_to_map_to_list, lookup_union.
  destruct (src !! k), (m !! k); done.
Qed.

(** ** Merging the listings *)

Lemma merged_lookup_None (list_fields : GraphqlHandler → option Conn → gmap string Field)
    (hcs : list (GraphqlHandler * Conn)) (name : string) :
  ∀ acc,
    (∀ h c, (h, c) ∈ hcs → list_fields h (Some c) !! name = None) →
    merged list_fields acc hcs !! name = acc !! name.
Proof.
  induction hcs as [|[h c] hcs IH]; intros acc Hnone; simpl; [done|].
  rewrite IH by (intros h' c' Hin; apply Hnone; by right).
  rewrite lookup_union_r; [done|]. apply Hnone. by left.
Qed.

(** The listing of the last handler that has the name decides. *)
Lemma merged_last_wins (list_fields : GraphqlHandler → option Conn → gmap string Field)
    (hcs : list (GraphqlHandler * Conn)) (name : string) (f : Field) :
  ∀ acc j h c,
    hcs !! j = Some (h, c) →
    list_fields h (Some c) !! name = Some f →
    (∀ j' h' c', j < j' → hcs !! j' = Some (h', c') →
       list_fields h' (Some c') !! name = None) →
    merged list_fields acc hcs !! name = Some f.
Proof.
  induction hcs as [|[h0 c0] hcs IH]; intros acc j h c Hj Hf Hlater; [done|].
  destruct j as [|j]; simpl in *.
  - simplify_eq. rewrite merged_lookup_None.
    + by apply lookup_union_Some_l.
    + intros h' c' [j' Hj']%list_elem_of_lookup.
      apply (Hlater (S j')); [lia|done].
  - eapply IH; [done..|].
    intros j' h' c' Hlt Hj'. apply (Hlater (S j')); [lia|done].
Qed.

Lemma schemaConfigFor_roots (queries mutations : gmap string Field) :
  rootFields (sc_Query (schemaConfigFor queries mutations)) = queries ∧
  rootFields (sc_Mutation (schemaConfigFor queries mutations)) = mutations.
Proof.
  unfold schemaConfigFor; simpl; split; case_decide; simpl; try done;
    symmetry; apply map_size_empty_iff; lia.
Qed.

(** ** Registration *)

(** The validation of a handler looks at the handler only. *)
Lemma validateHandler_mux (s1 s2 : ServeMux) (h : GraphqlHandler) :
  validateHandler s1 h = validateHandler s2 h.
Proof. reflexivity. Qed.

Lemma AddHandler_error (s : ServeMux) (h : GraphqlHandler) :
  (AddHandler s h).2 = validateHandler s h.
Proof. unfold AddHandler. by destruct (validateHandler s h). Qed.

(** ** The statements of [ServeHTTP], one by one *)

Lemma respondResult_run (result : Result) (st : State) :
  ∃ st', respondResult result st = (Some (), st') ∧
    trace st' = trace st ++ respondEvents result ∧
    deferred st' = deferred st.
Proof.
  unfold respondResult, mbind, M_bind, log; simpl.
  eexists; split; [reflexivity|]; simpl.
  by rewrite <- !app_assoc.
Qed.

Lemma middlewareLoop_run (ms : list MiddlewareFunc) (r : Request) :
  ∀ i ctx st,
    match middlewareLoop i ms r ctx st with
    | (Some ctx', st') =>
        ∃ ctxs, length ctxs = length ms ∧ ctx' = lastCtx ctx ctxs ∧
          trace st' = trace st ++ middlewareEvents i ctx ctxs ∧
          deferred st' = deferred st
    | (None, st') =>
        ∃ ctxs ctx'' err, length ctxs < length ms ∧
          trace st' = trace st ++ middlewareEvents i ctx ctxs ++
            EvMiddleware (i + length ctxs) (lastCtx ctx ctxs) ctx'' (Some err) ::
            respondEvents (errorResult (middlewareEnvelope "MIDDLEWARE_ERROR" err)) ∧
          deferred st' = deferred st
    end.
Proof.
  induction ms as [|m ms IH]; intros i ctx st.
  - exists []; simpl. by rewrite app_nil_r.
  - simpl. unfold mbind, M_bind, call at 1.
    destruct (m ctx r (world st)) as [[ctx' [err|]] w']; simpl.
    + exists [], ctx', err; simpl. rewrite Nat.add_0_r, <- !app_assoc.
      split; [lia|]. split; [|done]. by destruct err.
    + match goal with |- context [middlewareLoop _ _ _ _ ?st0] =>
        specialize (IH (S i) ctx' st0) end.
      destruct (middlewareLoop _ _ _ _ _) as [[ctx''|] st']; simpl in IH.
      * destruct IH as (ctxs & Hlen & -> & Htr & Hd).
        exists (ctx' :: ctxs); simpl. rewrite Htr, <- app_assoc.
        by rewrite Hlen.
      * destruct IH as (ctxs & ctx'' & err & Hlen & Htr & Hd).
        exists (ctx' :: ctxs), ctx'', err; simpl.
        rewrite Htr, <- app_assoc, Nat.add_succ_r. split; [lia|done].
Qed.

Lemma handlerLoop_run (hs : list GraphqlHandler) :
  ∀ i ctx queries mutations st,
    match handlerLoop i hs ctx queries mutations st with
    | (Some (queries', mutations'), st') =>
        ∃ cs, length cs = length hs ∧
          queries' = merged GetQueries queries (zip hs cs) ∧
          mutations' = merged GetMutations mutations (zip hs cs) ∧
          trace st' = trace st ++ connectionEvents i ctx cs ∧
          (deferred st').*1 = reverse (seq i (length cs)) ++ (deferred st).*1
    | (None, st') =>
        ∃ cs err, length cs < length hs ∧
          trace st' = trace st ++ connectionEvents i ctx cs ++
            EvCreateConnection (i + length cs) ctx (Err err) ::
            respondEvents
              (errorResult
                 (pipelineEnvelope "Failed to create grpc connection: "
                    "GRPC_CONNECT_ERROR" err)) ∧
          (deferred st').*1 = reverse (seq i (length cs)) ++ (deferred st).*1
    end.
Proof.
  induction hs as [|h hs IH]; intros i ctx queries mutations st.
  - exists []; simpl. by rewrite app_nil_r.
  - simpl. unfold mbind, M_bind, call at 1.
    destruct (CreateConnection h ctx (world st)) as [[[c closer]|err] w']; simpl.
    + rewrite !(assign_union _ _ _ (rangeOrder_perm _ _ _)).
      match goal with |- context [handlerLoop _ _ _ ?q ?m ?st0] =>
        specialize (IH (S i) ctx q m st0) end.
      destruct (handlerLoop _ _ _ _ _ _) as [[[queries' mutations']|] st'];
        simpl in IH.
      * destruct IH as (cs & Hlen & -> & -> & Htr & Hd).
        exists (c :: cs); simpl. rewrite Htr, Hd, <- !app_assoc, Hlen.
        repeat split; try done.
        by rewrite reverse_cons, <- app_assoc.
      * destruct IH as (cs & err & Hlen & Htr & Hd).
        exists (c :: cs), err; simpl.
        rewrite Htr, Hd, <- !app_assoc, Nat.add_succ_r.
        split; [lia|]. split; [done|].
        by rewrite reverse_cons, <- app_assoc.
    + exists [], err; simpl. rewrite Nat.add_0_r, <- !app_assoc.
      split; [lia|done].
Qed.

Lemma directiveFns_run (method : string) (ctx : Ctx) (r : Request)
    (fns : list (string * GraphQLMiddlewareFunc)) :
  ∀ st,
    match directiveFns method fns ctx r st with
    | (Some _, st') =>
        trace st' = trace st ++ directiveEvents (pair method <$> fns.*1) ∧
        deferred st' = deferred st
    | (None, st') =>
        ∃ pre directive post err, fns.*1 = pre ++ directive :: post ∧
          trace st' = trace st ++ directiveEvents (pair method <$> pre) ++
            EvDirective method directive (Some err) ::
            respondEvents
              (errorResult (middlewareEnvelope "DIRECTIVE_MIDDLEWARE_ERROR" err)) ∧
          deferred st' = deferred st
    end.
Proof.
  induction fns as [|[d fn] fns IH]; intros st.
  - simpl. by rewrite app_nil_r.
  - simpl. unfold mbind, M_bind, call at 1.
    destruct (fn ctx r method (world st)) as [[err|] w']; simpl.
    + exists [], d, fns.*1, err; simpl. rewrite <- !app_assoc.
      split; [done|]. split; [|done]. by destruct err.
    + match goal with |- context [directiveFns _ _ _ _ ?st0] =>
        specialize (IH st0) end.
      destruct (directiveFns _ _ _ _ _) as [[?|] st']; simpl in IH.
      * destruct IH as [Htr Hd]. rewrite Htr, <- app_assoc. done.
      * destruct IH as (pre & d' & post & err & Hfns & Htr & Hd).
        exists (d :: pre), d', post, err.
        split; [simpl; f_equal; exact Hfns|].
        rewrite Htr, <- app_assoc. done.
Qed.

(** Every dispatch list can be gone through. *)
Lemma Dispatch_total (s : ServeMux) (query : string) (names : list string) :
  ∃ calls, Dispatch s query names calls.
Proof.
  induction names as [|method names [calls IH]]; [eexists; constructor|].
  destruct (Contains query method) eqn:Hc;
    [|eexists; apply Dispatch_skip; eauto].
  destruct (graphQLMiddlewares s !! method) as [directives|] eqn:Hd;
    [|eexists; apply Dispatch_skip; eauto].
  eexists. by eapply Dispatch_run.
Qed.

(** What a dispatch calls: the directives registered for the names of the
    list that occur in the query, once for each occurrence of the name. *)
Lemma Dispatch_occurrences (s : ServeMux) (query : string)
    (names : list string) (calls : list (string * string)) :
  Dispatch s query names calls →
  ∀ method directive,
    occurrences (method, directive) calls =
      if Contains query method && registered s method directive
      then occurrences method names else 0.
Proof.
  unfold registered.
  induction 1 as [|method names calls Hskip _ IH
                  |method names directives ds calls Hc Hd Hds _ IH];
    intros m d.
  - by destruct (_ && _).
  - rewrite IH, occurrences_cons.
    destruct (decide (m = method)) as [->|Hne]; [|done].
    destruct Hskip as [->| ->]; [done|]. by rewrite andb_false_r.
  - rewrite occurrences_app, IH, occurrences_cons, occurrences_fmap_pair.
    destruct (decide (m = method)) as [->|Hne]; [|done].
    rewrite (occurrences_keys directives d ds Hds), Hc, Hd; simpl.
    case_bool_decide; by case_decide.
Qed.

Lemma directiveLoop_run (s : ServeMux) (ctx : Ctx) (r : Request)
    (req : GraphqlRequest) (names : list string) :
  ∀ st,
    match directiveLoop s ctx r req names st with
    | (Some _, st') =>
        ∃ calls, Dispatch s (Query req) names calls ∧
          trace st' = trace st ++ directiveEvents calls ∧
          deferred st' = deferred st
    | (None, st') =>
        ∃ calls method directive calls' err,
          Dispatch s (Query req) names (calls ++ (method, directive) :: calls') ∧
          trace st' = trace st ++ directiveEvents calls ++
            EvDirective method directive (Some err) ::
            respondEvents
              (errorResult (middlewareEnvelope "DIRECTIVE_MIDDLEWARE_ERROR" err)) ∧
          deferred st' = deferred st
    end.
Proof.
  induction names as [|method names IH]; intros st.
  - exists []; simpl. split; [constructor|]. by rewrite app_nil_r.
  - simpl. unfold mbind at 1, M_bind at 1.
    destruct (Contains (Query req) method) eqn:Hc; simpl.
    + destruct (graphQLMiddlewares s !! method) as [directives|] eqn:Hd; simpl.
      * unfold mbind at 1, M_bind at 1, range at 1.
        pose proof (rangeOrder_perm (ranges st) _ directives) as Hp.
        set (fns := rangeOrder (ranges st) _ directives) in *.
        match goal with |- context [directiveFns _ _ _ _ ?st0] =>
          pose proof (directiveFns_run method ctx r fns st0) as Hf end.
        destruct (directiveFns _ _ _ _ _) as [[?|] st1]; simpl in Hf.
        -- destruct Hf as [Htr1 Hd1].
           specialize (IH st1).
           destruct (directiveLoop _ _ _ _ _ _) as [[?|] st']; simpl in IH.
           ++ destruct IH as (calls & HD & Htr & Hd').
              exists ((pair method <$> fns.*1) ++ calls).
              split; [eapply Dispatch_run; eauto; by rewrite Hp|].
              rewrite Htr, Htr1, Hd', Hd1, <- app_assoc.
              unfold directiveEvents. by rewrite fmap_app.
           ++ destruct IH as (calls & m' & d' & calls' & err & HD & Htr & Hd').
              exists ((pair method <$> fns.*1) ++ calls), m', d', calls', err.
              split; [rewrite <- app_assoc; eapply Dispatch_run; eauto; by rewrite Hp|].
              rewrite Htr, Htr1, Hd', Hd1, <- !app_assoc.
              unfold directiveEvents. by rewrite fmap_app, <- app_assoc.
        -- destruct Hf as (pre & d & post & err & Hfns & Htr1 & Hd1).
           destruct (Dispatch_total s (Query req) names) as [rest Hrest].
           exists (pair method <$> pre), method, d,
             ((pair method <$> post) ++ rest), err.
           split; [|done].
           replace ((pair method <$> pre) ++
                    (method, d) :: (pair method <$> post) ++ rest)
             with ((pair method <$> (pre ++ d :: post)) ++ rest)
             by (by rewrite fmap_app, <- app_assoc).
           eapply Dispatch_run; eauto. by rewrite <- Hfns, Hp.
      * specialize (IH st).
        destruct (directiveLoop _ _ _ _ _ _) as [[?|] st']; simpl in IH.
        -- destruct IH as (calls & HD & Htr & Hd').
           exists calls. split; [apply Dispatch_skip; eauto|done].
        -- destruct IH as (calls & m' & d' & calls' & err & HD & Htr & Hd').
           exists calls, m', d', calls', err.
           split; [apply Dispatch_skip; eauto|done].
    + specialize (IH st).
      destruct (directiveLoop _ _ _ _ _ _) as [[?|] st']; simpl in IH.
      * destruct IH as (calls & HD & Htr & Hd').
        exists calls. split; [apply Dispatch_skip; eauto|done].
      * destruct IH as (calls & m' & d' & calls' & err & HD & Htr & Hd').
        exists calls, m', d', calls', err.
        split; [apply Dispatch_skip; eauto|done].
Qed.

Lemma runDeferred_trace (ds : list (nat * (World → World))) :
  ∀ w tr, (runDeferred ds w tr).2 = tr ++ (EvClose <$> ds.*1).
Proof.
  induction ds as [|[i closer] ds IH]; intros w tr; simpl.
  - by rewrite app_nil_r.
  - by rewrite IH, <- app_assoc.
Qed.

(** ** The traces of [ServeHTTP] *)

Theorem ServeHTTP_Run (s : ServeMux) (r : Request) (w : World) :
  Run s r (ServeHTTP s r w).2.
Proof.
  unfold ServeHTTP, ServeHTTP_body.
  set (st0 := {| world := w; deferred := []; ranges := 0; trace := [] |}).
  unfold mbind at 1, M_bind at 1.
  pose proof (middlewareLoop_run (middlewares s) r 0 (Request_Context r) st0) as Hm.
  destruct (middlewareLoop _ _ _ _ _) as [[ctx|] st1]; simpl in Hm; cycle 1.
  { destruct Hm as (ctxs & ctx'' & err & Hlen & Htr & Hd).
    rewrite runDeferred_trace, Htr, Hd; simpl. rewrite app_nil_r.
    by apply Run_middleware_error. }
  destruct Hm as (ctxs & Hlen & -> & Htr1 & Hd1).
  unfold mbind at 1, M_bind at 1.
  pose proof (handlerLoop_run (handlers s) 0 (lastCtx (Request_Context r) ctxs)
                ∅ ∅ st1) as Hh.
  destruct (handlerLoop _ _ _ _ _ _) as [[[queries mutations]|] st2];
    simpl in Hh; cycle 1.
  { destruct Hh as (cs & err & Hlenc & Htr & Hd).
    rewrite runDeferred_trace, Htr, Hd, Htr1, Hd1; simpl.
    rewrite app_nil_r, <- !app_assoc. simpl.
    by apply Run_connect_error. }
  destruct Hh as (cs & Hlenc & -> & -> & Htr2 & Hd2).
  rewrite Htr1 in Htr2. rewrite Hd1 in Hd2. simpl in Htr2, Hd2.
  rewrite app_nil_r in Hd2.
  set (queries := merged GetQueries ∅ (zip (handlers s) cs)) in *.
  set (mutations := merged GetMutations ∅ (zip (handlers s) cs)) in *.
  cbv zeta.
  match goal with |- context [EvNewSchema ?c] =>
    replace c with (schemaConfigFor queries mutations)
      by (unfold schemaConfigFor; repeat case_decide; done) end.
  set (cfg := schemaConfigFor queries mutations).
  unfold mbind at 1, M_bind at 1, log at 1.
  destruct (NewSchema cfg) as [schema|err] eqn:Hschema.
  2: { unfold mbind at 1, M_bind at 1.
       match goal with |- context [respondResult ?res ?st] =>
         destruct (respondResult_run res st) as (st3 & -> & Htr3 & Hd3) end.
       unfold return_. rewrite runDeferred_trace, Htr3, Hd3; simpl.
       rewrite Htr2, Hd2, <- !app_assoc. simpl.
       by apply (Run_schema_error s r ctxs cs cfg err). }
  unfold mbind at 1, M_bind at 1, log at 1.
  destruct (parseRequest r) as [req|err] eqn:Hparse.
  2: { unfold mbind at 1, M_bind at 1.
       match goal with |- context [respondResult ?res ?st] =>
         destruct (respondResult_run res st) as (st3 & -> & Htr3 & Hd3) end.
       unfold return_. rewrite runDeferred_trace, Htr3, Hd3; simpl.
       rewrite Htr2, Hd2, <- !app_assoc. simpl.
       by apply (Run_parse_error s r ctxs cs cfg schema err). }
  unfold mbind at 1, M_bind at 1, range at 1.
  unfold mbind at 1, M_bind at 1, range at 1.
  simpl ranges; simpl world; simpl deferred; simpl trace.
  unfold mbind at 1, M_bind at 1.
  match goal with |- context [directiveLoop _ _ _ _ ?ns ?st] =>
    set (names := ns);
    assert (methodNamesOf queries mutations names) as Hnames
      by (eexists _, _; split_and!; [| |reflexivity];
          apply fmap_Permutation, rangeOrder_perm);
    pose proof (directiveLoop_run s (lastCtx (Request_Context r) ctxs) r req
                  names st) as Hdl
  end.
  destruct (directiveLoop _ _ _ _ _ _) as [[?|] st3]; simpl in Hdl; cycle 1.
  { destruct Hdl as (calls & method & directive & calls' & err & HD & Htr3 & Hd3).
    rewrite runDeferred_trace, Htr3, Hd3, Htr2, Hd2, <- !app_assoc. simpl.
    by eapply (Run_directive_error s r ctxs cs cfg schema req names). }
  destruct Hdl as (calls & HD & Htr3 & Hd3).
  unfold mbind at 1, M_bind at 1, call at 1.
  destruct (Do _ (world st3)) as [result w4].
  unfold mbind at 1, M_bind at 1, log at 1.
  unfold mbind at 1, M_bind at 1.
  assert (∀ st : State,
    ∃ st', (if decide (0 < length (Errors result))
            then log (EvErrorHandler (Errors result));;
                 match ErrorHandler s with
                 | Some handler => call (λ w, ((), handler (Errors result) w))
                 | None =>
                     call (λ w, ((), defaultGraphqlErrorHandler (Errors result) w))
                 end
            else mret ()) st = (Some (), st') ∧
      trace st' = trace st ++
        (if decide (0 < length (Errors result))
         then [EvErrorHandler (Errors result)] else []) ∧
      deferred st' = deferred st) as Hobs.
  { intros st. case_decide.
    - unfold mbind, M_bind, log, call; simpl.
      destruct (ErrorHandler s); eexists; split; try reflexivity; done.
    - eexists; split; [reflexivity|]. by rewrite app_nil_r. }
  match goal with |- context [(if decide _ then _ else _) ?st] =>
    destruct (Hobs st) as (st5 & -> & Htr5 & Hd5) end.
  match goal with |- context [respondResult ?res ?st] =>
    destruct (respondResult_run res st) as (st6 & -> & Htr6 & Hd6) end.
  rewrite runDeferred_trace, Htr6, Hd6, Htr5, Hd5; simpl.
  rewrite Htr3, Hd3, Htr2, Hd2, <- !app_assoc. simpl.
  by eapply (Run_executed s r ctxs cs cfg schema req names).
Qed.

(** ** The pieces of a trace: what is in them, and how often *)

Lemma count_app (P : Event → bool) (tr1 tr2 : list Event) :
  count P (tr1 ++ tr2) = count P tr1 + count P tr2.
Proof. unfold count. by rewrite List.filter_app, length_app. Qed.

Lemma count_cons (P : Event → bool) (e : Event) (tr : list Event) :
  count P (e :: tr) = (if P e then 1 else 0) + count P tr.
Proof. unfold count; simpl. by destruct (P e). Qed.

Lemma count_pos_elem (P : Event → bool) (tr : list Event) :
  0 < count P tr → ∃ e, e ∈ tr ∧ P e = true.
Proof.
  unfold count. induction tr as [|e tr IH]; simpl; [lia|].
  destruct (P e) eqn:He.
  - intros _. exists e. split; [left|done].
  - intros Hc. destruct (IH Hc) as (e' & ? & ?). exists e'. split; [by right|done].
Qed.

Lemma elem_count_pos (P : Event → bool) (e : Event) (tr : list Event) :
  e ∈ tr → P e = true → 0 < count P tr.
Proof.
  intros Hin HP. apply list_elem_of_split in Hin as (tr1 & tr2 & ->).
  rewrite count_app, count_cons, HP. lia.
Qed.

Lemma elem_of_middlewareEvents (e : Event) (ctxs : list Ctx) :
  ∀ i ctx, e ∈ middlewareEvents i ctx ctxs →
    ∃ j cin cout, e = EvMiddleware j cin cout None ∧ i ≤ j < i + length ctxs.
Proof.
  induction ctxs as [|ctx' ctxs IH]; intros i ctx; simpl.
  - by intros ?%elem_of_nil.
  - intros [->|Hin]%elem_of_cons.
    + exists i, ctx, ctx'. split; [done|lia].
    + destruct (IH _ _ Hin) as (j & cin & cout & -> & ?).
      exists j, cin, cout. split; [done|lia].
Qed.

Lemma filter_middlewareEvents (P : Event → bool) (ctxs : list Ctx) :
  (∀ j cin cout err, P (EvMiddleware j cin cout err) = false) →
  ∀ i ctx, List.filter P (middlewareEvents i ctx ctxs) = [].
Proof.
  intros HP. induction ctxs as [|ctx' ctxs IH]; intros i ctx; simpl; [done|].
  by rewrite HP.
Qed.

Lemma elem_of_connectionEvents (e : Event) (ctx : Ctx) (cs : list Conn) :
  ∀ i, e ∈ connectionEvents i ctx cs ↔
    ∃ k c, cs !! k = Some c ∧ e = EvCreateConnection (i + k) ctx (Ok c).
Proof.
  induction cs as [|c cs IH]; intros i; simpl.
  - split; [by intros ?%elem_of_nil|]. by intros (k & c & ? & _).
  - rewrite elem_of_cons, IH. split.
    + intros [->|(k & c' & Hk & ->)].
      * exists 0, c. by rewrite Nat.add_0_r.
      * exists (S k), c'. by rewrite Nat.add_succ_r.
    + intros ([|k] & c' & Hk & ->); simpl in Hk.
      * left. rewrite Nat.add_0_r. by simplify_eq.
      * right. exists k, c'. by rewrite Nat.add_succ_r.
Qed.

Lemma filter_connectionEvents (P : Event → bool) (ctx : Ctx) (cs : list Conn) :
  (∀ j ctx res, P (EvCreateConnection j ctx res) = false) →
  ∀ i, List.filter P (connectionEvents i ctx cs) = [].
Proof.
  intros HP. induction cs as [|c cs IH]; intros i; simpl; [done|].
  by rewrite HP.
Qed.

(** Among handlers [i], ..., each is attempted, and acquires, once. *)
Lemma count_isAttempt_connectionEvents (j : nat) (ctx : Ctx) (cs : list Conn) :
  ∀ i, count (isAttempt j) (connectionEvents i ctx cs) =
       if decide (i ≤ j < i + length cs) then 1 else 0.
Proof.
  induction cs as [|c cs IH]; intros i; simpl.
  - case_decide; [lia|done].
  - rewrite count_cons, IH; simpl.
    destruct (Nat.eqb_spec j i); repeat case_decide; lia.
Qed.

Lemma count_isAcquired_connectionEvents (j : nat) (ctx : Ctx) (cs : list Conn) :
  ∀ i, count (isAcquired j) (connectionEvents i ctx cs) =
       if decide (i ≤ j < i + length cs) then 1 else 0.
Proof.
  induction cs as [|c cs IH]; intros i; simpl.
  - case_decide; [lia|done].
  - rewrite count_cons, IH; simpl.
    destruct (Nat.eqb_spec j i); repeat case_decide; lia.
Qed.

Lemma elem_of_closeEvents (e : Event) (n : nat) :
  e ∈ closeEvents n ↔ ∃ j, j < n ∧ e = EvClose j.
Proof.
  unfold closeEvents. rewrite list_elem_of_fmap. split.
  - intros (j & -> & Hj). exists j. split; [|done].
    apply elem_of_reverse, elem_of_seq in Hj. lia.
  - intros (j & Hj & ->). exists j. split; [done|].
    apply elem_of_reverse, elem_of_seq. lia.
Qed.

Lemma filter_closeEvents (P : Event → bool) (n : nat) :
  (∀ j, P (EvClose j) = false) → List.filter P (closeEvents n) = [].
Proof.
  intros HP. unfold closeEvents.
  induction (reverse (seq 0 n)) as [|j l IH]; simpl; [done|]. by rewrite HP.
Qed.

(** Each of the closers [n-1], ..., [0] runs once. *)
Lemma count_isClose_closeEvents (j n : nat) :
  count (isClose j) (closeEvents n) = if decide (j < n) then 1 else 0.
Proof.
  unfold closeEvents. induction n as [|n IH].
  - case_decide; [lia|reflexivity].
  - rewrite seq_S, reverse_app, fmap_app, count_app, IH.
    unfold count; simpl.
    destruct (Nat.eqb_spec j n); repeat case_decide; simpl; lia.
Qed.

Lemma elem_of_directiveEvents (e : Event) (calls : list (string * string)) :
  e ∈ directiveEvents calls ↔
    ∃ method directive, (method, directive) ∈ calls ∧
      e = EvDirective method directive None.
Proof.
  unfold directiveEvents. rewrite list_elem_of_fmap. split.
  - intros ([m d] & -> & Hin). by exists m, d.
  - intros (m & d & Hin & ->). by exists (m, d).
Qed.

Lemma filter_directiveEvents (P : Event → bool) (calls : list (string * string)) :
  (∀ m d err, P (EvDirective m d err) = false) →
  List.filter P (directiveEvents calls) = [].
Proof.
  intros HP. unfold directiveEvents.
  induction calls as [|c calls IH]; simpl; [done|]. by rewrite HP.
Qed.

Lemma elem_of_respondEvents (e : Event) (result : Result) :
  e ∈ respondEvents result →
    e = EvRespondResult result ∨ (∃ k v, e = EvHeaderSet k v) ∨
    e = EvWriteHeader http_StatusOK ∨ e = EvWrite (json_Marshal result).
Proof.
  unfold respondEvents. rewrite !elem_of_cons, elem_of_nil.
  intros [->|[->|[->|[->|[->|[]]]]]]; eauto.
Qed.

Lemma count_middlewareEvents (P : Event → bool) (i : nat) (ctx : Ctx)
    (ctxs : list Ctx) :
  (∀ j cin cout err, P (EvMiddleware j cin cout err) = false) →
  count P (middlewareEvents i ctx ctxs) = 0.
Proof. intros HP. unfold count. by rewrite filter_middlewareEvents. Qed.

Lemma count_connectionEvents (P : Event → bool) (i : nat) (ctx : Ctx)
    (cs : list Conn) :
  (∀ j ctx res, P (EvCreateConnection j ctx res) = false) →
  count P (connectionEvents i ctx cs) = 0.
Proof. intros HP. unfold count. by rewrite filter_connectionEvents. Qed.

Lemma count_closeEvents (P : Event → bool) (n : nat) :
  (∀ j, P (EvClose j) = false) → count P (closeEvents n) = 0.
Proof. intros HP. unfold count. by rewrite filter_closeEvents. Qed.

Lemma count_directiveEvents (P : Event → bool) (calls : list (string * string)) :
  (∀ m d err, P (EvDirective m d err) = false) →
  count P (directiveEvents calls) = 0.
Proof. intros HP. unfold count. by rewrite filter_directiveEvents. Qed.

Lemma count_nil (P : Event → bool) : count P [] = 0.
Proof. done. Qed.

End Proofs.

(** Taking apart [H : e ∈ tr] for a trace [tr] built from the pieces. *)
Ltac trace_elem H :=
  repeat match type of H with
  | _ ∈ _ ++ _ => apply elem_of_app in H as [H|H]
  | _ ∈ _ :: _ => apply elem_of_cons in H as [H|H]
  | _ ∈ [] => by apply elem_of_nil in H
  | _ ∈ middlewareEvents _ _ _ =>
      apply elem_of_middlewareEvents in H as (? & ? & ? & H & ?)
  | _ ∈ connectionEvents _ _ _ =>
      apply elem_of_connectionEvents in H as (? & ? & ? & H)
  | _ ∈ closeEvents _ => apply elem_of_closeEvents in H as (? & ? & H)
  | _ ∈ directiveEvents _ =>
      apply elem_of_directiveEvents in H as (? & ? & ? & H)
  | _ ∈ respondEvents _ =>
      apply elem_of_respondEvents in H as [H|[(? & ? & H)|[H|H]]]
  | _ ∈ (if ?b then _ else _) => destruct b
  end;
  try discriminate H.

(** Filtering such a trace by a predicate on events. *)
Ltac trace_filter :=
  repeat first
    [ rewrite List.filter_app
    | rewrite filter_middlewareEvents by done
    | rewrite filter_connectionEvents by done
    | rewrite filter_closeEvents by done
    | rewrite filter_directiveEvents by done
    | progress simpl ];
  try (case_decide; simpl).

(** Counting in such a trace. *)
Ltac trace_count :=
  unfold respondEvents;
  repeat first
    [ rewrite count_app
    | rewrite count_cons
    | rewrite count_nil
    | rewrite count_isAttempt_connectionEvents
    | rewrite count_isAcquired_connectionEvents
    | rewrite count_isClose_closeEvents
    | rewrite count_middlewareEvents by done
    | rewrite count_connectionEvents by done
    | rewrite count_closeEvents by done
    | rewrite count_directiveEvents by done ];
  simpl;
  repeat first
    [ case_decide
    | match goal with
      | |- context [Nat.eqb ?a ?b] => destruct (Nat.eqb_spec a b)
      end ];
  simpl; try lia.

Section TraceFacts.
Context `{Externals}.

(** Every request is answered by one call of [respondResult]. *)
Lemma Run_responses (s : ServeMux) (r : Request) (tr : list Event) :
  Run s r tr → ∃ result, List.filter isRespondResult tr = [EvRespondResult result].
Proof. destruct 1; eexists; trace_filter; reflexivity. Qed.


Lemma omap_nil_elem {A B} (f : A → option B) (l : list A) :
  (∀ x, x ∈ l → f x = None) → omap f l = [].
Proof.
  induction l as [|x l IH]; intros Hf; [done|].
  cbn. rewrite (Hf x) by left. apply IH. intros y Hy. apply Hf. by right.
Qed.

Lemma middlewareCalls_app (tr1 tr2 : list Event) :
  middlewareCalls (tr1 ++ tr2) = middlewareCalls tr1 ++ middlewareCalls tr2.
Proof. apply omap_app. Qed.


Lemma isDirective_true (method directive : string) (e : Event) :
  isDirective method directive e = true ↔ ∃ err, e = EvDirective method directive err.
Proof.
  split.
  - destruct e; simpl; try done.
    intros [->%String.eqb_eq ->%String.eqb_eq]%andb_true_iff. by eexists.
  - intros [err ->]; simpl. by rewrite !String.eqb_refl.
Qed.

Lemma count_isDirective_directiveEvents (method directive : string)
    (calls : list (string * string)) :
  count (isDirective method directive) (directiveEvents calls) =
    occurrences (method, directive) calls.
Proof.
  induction calls as [|[m d] calls IH]; [done|].
  unfold directiveEvents in *. rewrite fmap_cons, count_cons, occurrences_cons, IH.
  simpl. destruct (String.eqb_spec method m), (String.eqb_spec directive d);
    simpl; case_decide; simplify_eq; done.
Qed.

(** The names of a dispatch list are those of the two merged maps. *)
Lemma methodNamesOf_elem (queries mutations : gmap string Field)
    (names : list string) (name : string) :
  methodNamesOf queries mutations names →
  name ∈ names ↔ is_Some (queries !! name) ∨ is_Some (mutations !! name).
Proof.
  intros (qs & ms & Hqs & Hms & ->).
  rewrite elem_of_app, <- !occurrences_pos.
  rewrite (occurrences_keys queries name qs Hqs),
          (occurrences_keys mutations name ms Hms).
  repeat case_decide; intuition lia.
Qed.

(** A name of both maps is in the dispatch list twice. *)
Lemma methodNamesOf_twice (queries mutations : gmap string Field)
    (names : list string) (name : string) :
  methodNamesOf queries mutations names →
  is_Some (queries !! name) → is_Some (mutations !! name) →
  occurrences name names = 2.
Proof.
  intros (qs & ms & Hqs & Hms & ->) Hq Hm.
  rewrite occurrences_app.
  rewrite (occurrences_keys queries name qs Hqs),
          (occurrences_keys mutations name ms Hms).
  by rewrite !decide_True.
Qed.

(** A directive middleware that a dispatch calls is registered for a name
    of the list that occurs in the query, and conversely. *)
Lemma Dispatch_elem (s : ServeMux) (query : string) (names : list string)
    (calls : list (string * string)) (method directive : string) :
  Dispatch s query names calls →
  (method, directive) ∈ calls ↔
    Contains query method = true ∧ registered s method directive = true ∧
    method ∈ names.
Proof.
  intros HD. rewrite <- !occurrences_pos.
  rewrite (Dispatch_occurrences _ _ _ _ HD).
  destruct (Contains query method), (registered s method directive); simpl;
    intuition (try lia; try done).
Qed.


(** A request that is executed went through a whole dispatch. *)
Lemma Run_executed_inv (s : ServeMux) (r : Request) (tr : list Event) (p : Params) :
  Run s r tr →
  EvDo p ∈ tr →
  ∃ ctxs cs req names calls rest,
    parseRequest r = Ok req ∧
    methodNamesOf (merged GetQueries ∅ (zip (handlers s) cs))
                  (merged GetMutations ∅ (zip (handlers s) cs)) names ∧
    Dispatch s (Query req) names calls ∧
    tr = middlewareEvents 0 (Request_Context r) ctxs ++
         connectionEvents 0 (lastCtx (Request_Context r) ctxs) cs ++
         EvNewSchema (schemaConfigFor (merged GetQueries ∅ (zip (handlers s) cs))
                                      (merged GetMutations ∅ (zip (handlers s) cs))) ::
         EvParseRequest :: directiveEvents calls ++ EvDo p :: rest ∧
    count isDirectiveCall rest = 0 ∧
    ∀ cfg, EvNewSchema cfg ∈ tr →
      cfg = schemaConfigFor (merged GetQueries ∅ (zip (handlers s) cs))
                            (merged GetMutations ∅ (zip (handlers s) cs)).
Proof.
  destruct 1; intros Hin; trace_elem Hin; simplify_eq.
  eexists _, _, _, _, _, _; split_and!; [eassumption..|reflexivity| |].
  - trace_count.
  - intros cfg' Hcfg. trace_elem Hcfg; by simplify_eq.
Qed.

Lemma middlewareCalls_nil (tr : list Event) :
  (∀ i ctx ctx' err, EvMiddleware i ctx ctx' err ∉ tr) → middlewareCalls tr = [].
Proof.
  intros Hno. apply omap_nil_elem. intros [] He; try done. by apply Hno in He.
Qed.

End TraceFacts.

(** * The claims *)

Section Claims.
Context `{Externals}.



(** C7.  A failing global middleware, and a failing directive middleware,
    produce one error envelope.  Its code and message are those of the error
    when the error is a [*MiddlewareError]; otherwise its message is the
    error's text and its code is MIDDLEWARE_ERROR for a global middleware and
    DIRECTIVE_MIDDLEWARE_ERROR for a directive middleware.  After a directive
    failure the query is not executed. *)
Theorem C7_middleware_error_envelope (s : ServeMux) (r : Request) (w : World) :
  let tr := (ServeHTTP s r w).2 in
  (∀ i ctx ctx' err, EvMiddleware i ctx ctx' (Some err) ∈ tr →
     ∃ ge,
       List.filter isRespondResult tr =
         [EvRespondResult {| r_Data := None; Errors := [ge] |}] ∧
       match err with
       | IsMiddlewareError me =>
           ge_Message ge = Message me ∧ ge_Extensions ge = {[ "code" := Code me ]}
       | OtherError text =>
           ge_Message ge = text ∧ ge_Extensions ge = {[ "code" := "MIDDLEWARE_ERROR" ]}
       end) ∧
  (∀ method directive err, EvDirective method directive (Some err) ∈ tr →
     (∃ ge,
        List.filter isRespondResult tr =
          [EvRespondResult {| r_Data := None; Errors := [ge] |}] ∧
        match err with
        | IsMiddlewareError me =>
            ge_Message ge = Message me ∧ ge_Extensions ge = {[ "code" := Code me ]}
        | OtherError text =>
            ge_Message ge = text ∧
            ge_Extensions ge = {[ "code" := "DIRECTIVE_MIDDLEWARE_ERROR" ]}
        end) ∧
     count isDo tr = 0).
Proof.
  intros tr. pose proof (ServeHTTP_Run s r w) as HR. fold tr in HR.
  clearbody tr. split.
  - intros i ctx ctx'' err' Hin.
    destruct HR; trace_elem Hin. simplify_eq.
    eexists. split; [trace_filter; reflexivity|].
    match goal with |- context [middlewareEnvelope _ ?e] => by destruct e end.
  - intros method' directive' err' Hin.
    destruct HR; trace_elem Hin. simplify_eq.
    split; [|unfold count; trace_filter; done].
    eexists. split; [trace_filter; reflexivity|].
    match goal with |- context [middlewareEnvelope _ ?e] => by destruct e end.
Qed.





(** C5.  The field map of a root type used to build the request-time schema
    holds, for every name, the field listed by the last registered handler
    that lists the name (with the connection it acquired); and whether
    [AddHandler] returns an error for a handler does not depend on the
    handlers registered before it. *)
Theorem C5_last_handler_wins (s : ServeMux) (r : Request) (w : World)
    (root : Root) (cfg : SchemaConfig) (j : nat) (h : GraphqlHandler)
    (ctx : Ctx) (c : Conn) (name : string) (f : Field) :
  let tr := (ServeHTTP s r w).2 in
  EvNewSchema cfg ∈ tr →
  handlers s !! j = Some h →
  EvCreateConnection j ctx (Ok c) ∈ tr →
  listing root h (Some c) !! name = Some f →
  (∀ j' h' ctx' c', j < j' → handlers s !! j' = Some h' →
     EvCreateConnection j' ctx' (Ok c') ∈ tr →
     listing root h' (Some c') !! name = None) →
  rootFields (rootOf root cfg) !! name = Some f ∧
  ∀ s1 s2, (AddHandler s1 h).2 = (AddHandler s2 h).2.
Proof.
  intros tr Hcfg Hh Hc Hf Hlater.
  split; [|intros s1 s2; by rewrite !AddHandler_error].
  pose proof (ServeHTTP_Run s r w) as HR. fold tr in HR. clearbody tr.
  assert (∀ ctxs cs pre post,
    tr = middlewareEvents 0 (Request_Context r) ctxs ++
         connectionEvents 0 (lastCtx (Request_Context r) ctxs) cs ++ post →
    (∀ e, e ∈ post → ∀ i ctx c, e ≠ EvCreateConnection i ctx (Ok c)) →
    pre = zip (handlers s) cs →
    merged (listing root) ∅ pre !! name = Some f) as Hmerged.
  { intros ctxs cs pre post -> Hpost ->.
    assert (cs !! j = Some c) as Hcj.
    { trace_elem Hc; [by simplify_eq|]. by eapply Hpost in Hc. }
    eapply (merged_last_wins _ _ _ _ _ j h c); [|done|].
    - apply lookup_zip_with_Some. by exists h, c.
    - intros j' h' c' Hlt (h'' & c'' & ? & Hh' & Hc')%lookup_zip_with_Some.
      simplify_eq. eapply (Hlater j'); [done..|].
      apply elem_of_app. right. apply elem_of_app. left.
      apply elem_of_connectionEvents. by exists j', c''. }
  destruct HR; trace_elem Hcfg; simplify_eq.
  all: match goal with |- context [schemaConfigFor ?q ?m] =>
         destruct (schemaConfigFor_roots q m) as [Hq Hm] end.
  all: destruct root; unfold rootOf; rewrite ?Hq, ?Hm.
  all: eapply Hmerged; [reflexivity| |reflexivity].
  all: intros e He ???; intros ->; trace_elem He.
Qed.

(** C8.  [AddHandler] lists the handler's fields with no connection.  If both
    listings are empty the handler is appended without building a schema.
    Otherwise a schema is built from the listings: if that fails,
    [AddHandler] returns an error and the registry is unchanged; if not, the
    handler is appended.  *)
Theorem C8_AddHandler_validation (s : ServeMux) (h : GraphqlHandler) :
  let queries := GetQueries h None in
  let mutations := GetMutations h None in
  let appended :=
    {| middlewares := middlewares s;
       graphQLMiddlewares := graphQLMiddlewares s;
       ErrorHandler := ErrorHandler s;
       handlers := handlers s ++ [h] |} in
  (queries = ∅ ∧ mutations = ∅ → AddHandler s h = (appended, None)) ∧
  (¬ (queries = ∅ ∧ mutations = ∅) →
     match NewSchema (schemaConfigFor queries mutations) with
     | Err err =>
         AddHandler s h =
           (s, Some (OtherError ("Schema validation error: " +:+ Error err)))
     | Ok _ => AddHandler s h = (appended, None)
     end).
Proof.
  intros queries mutations appended.
  unfold AddHandler, validateHandler. fold queries mutations. cbv zeta.
  split.
  - intros [Hq Hm]. rewrite decide_True; [done|].
    by rewrite Hq, Hm, map_size_empty.
  - intros Hne. rewrite decide_False by (by rewrite !map_size_empty_iff).
    set (cfg := schemaConfigFor queries mutations).
    match goal with |- context [NewSchema ?c] =>
      tryif constr_eq c cfg then fail
      else replace c with cfg
        by (unfold cfg, schemaConfigFor; repeat case_decide; done)
    end.
    by destruct (NewSchema cfg).
Qed.


(** C10 (as the code has it).  A name that is in the merged query map and
    in the merged mutation map is in the dispatch list twice; so when it
    occurs in the query text and the request reaches execution (no directive
    middleware failed), every directive middleware registered for it has run
    twice in this request. *)
Theorem C10_directive_runs_twice (s : ServeMux) (r : Request) (w : World)
    (req : GraphqlRequest) (cfg : SchemaConfig) (name directive : string)
    (p : Params) :
  let tr := (ServeHTTP s r w).2 in
  parseRequest r = Ok req →
  EvNewSchema cfg ∈ tr →
  is_Some (rootFields (sc_Query cfg) !! name) →
  is_Some (rootFields (sc_Mutation cfg) !! name) →
  (∀ names,
     methodNamesOf (rootFields (sc_Query cfg)) (rootFields (sc_Mutation cfg)) names →
     occurrences name names = 2) ∧
  (Contains (Query req) name = true →
   registered s name directive = true →
   EvDo p ∈ tr →
   count (isDirective name directive) tr = 2).
Proof.
  intros tr Hparse Hcfg Hq Hm. split.
  { intros names Hnames. by apply (methodNamesOf_twice _ _ _ _ Hnames). }
  intros Hc Hreg HDo.
  pose proof (ServeHTTP_Run s r w) as HR. fold tr in HR. clearbody tr.
  destruct (Run_executed_inv _ _ _ _ HR HDo)
    as (ctxs & cs & req' & names & calls & rest & Hparse' & Hnames & HD & Htr
        & Hrest & Hcfgs).
  assert (req' = req) as -> by congruence.
  apply Hcfgs in Hcfg as ->. subst tr.
  match type of Hq with context [schemaConfigFor ?q ?m] =>
    destruct (schemaConfigFor_roots q m) as [Hq' Hm'] end.
  rewrite Hq' in Hq. rewrite Hm' in Hm.
  pose proof (methodNamesOf_twice _ _ _ _ Hnames Hq Hm) as Htwice.
  pose proof (Dispatch_occurrences _ _ _ _ HD name directive) as Hocc.
  rewrite Hc, Hreg, Htwice in Hocc; simpl in Hocc.
  assert (count (isDirective name directive) rest = 0) as Hrest'.
  { destruct (count (isDirective name directive) rest) eqn:Hn; [done|].
    destruct (count_pos_elem (isDirective name directive) rest) as (e & He & HP);
      [lia|].
    apply isDirective_true in HP as [err ->].
    pose proof (elem_count_pos isDirectiveCall _ _ He eq_refl). lia. }
  repeat (rewrite count_app || rewrite count_cons).
  rewrite count_isDirective_directiveEvents, Hocc, Hrest'.
  rewrite count_middlewareEvents, count_connectionEvents by done.
  done.
Qed.

End Claims.

(** * The claims on the small gateway *)

Section Runs.
#[local] Existing Instance Demo.types.
#[local] Existing Instance Demo.externals.
Import Demo.

(** An event is in a trace that can be computed. *)
Ltac trace_has :=
  vm_compute; repeat first [ apply list_elem_of_here | apply list_elem_of_further ].







Lemma C5_witness :
  listing MutationRoot starwars (Some 1) !! "create" = Some "starwars" ∧
  listing MutationRoot greeter (Some 2) !! "create" = Some "greeter" ∧
  rootFields
    (rootOf MutationRoot
       (schemaConfigFor (GetQueries greeter None ∪ GetQueries starwars None)
                        (GetMutations greeter None ∪ GetMutations starwars None)))
    !! "create" = Some "greeter" ∧
  (AddHandler oneHandler greeter).2 = (AddHandler (NewServeMux []) greeter).2.
Proof.
  assert (EvNewSchema
            (schemaConfigFor (GetQueries greeter None ∪ GetQueries starwars None)
                        (GetMutations greeter None ∪ GetMutations starwars None))
            ∈ traceOf twoHandlers "{ hello }") as Hcfg by trace_has.
  assert (handlers twoHandlers !! 1 = Some greeter) as Hh by reflexivity.
  assert (EvCreateConnection 1 [] (Ok 2) ∈ traceOf twoHandlers "{ hello }")
    as Hc by trace_has.
  assert (listing MutationRoot greeter (Some 2) !! "create" = Some "greeter")
    as Hf by reflexivity.
  assert (∀ j' h' ctx' c', 1 < j' → handlers twoHandlers !! j' = Some h' →
            EvCreateConnection j' ctx' (Ok c') ∈ traceOf twoHandlers "{ hello }" →
            listing MutationRoot h' (Some c') !! "create" = None) as Hlast.
  { intros j' h' ctx' c' Hj' Hh' _. apply lookup_lt_Some in Hh'.
    vm_compute in Hh'. lia. }
  destruct (C5_last_handler_wins twoHandlers "{ hello }" [] MutationRoot _ 1
              greeter [] 2 "create" "greeter" Hcfg Hh Hc Hf Hlast)
    as [Hwins Hadd].
  split_and!; [reflexivity|done|done|apply Hadd].
Defined.



Lemma C7_witness :
  (∃ ge,
     List.filter isRespondResult (traceOf guarded "{ hello }") =
       [EvRespondResult {| r_Data := None; Errors := [ge] |}] ∧
     ge_Message ge = "no token" ∧
     ge_Extensions ge = {[ "code" := "UNAUTHORIZED" ]}) ∧
  (∃ ge,
     List.filter isRespondResult (traceOf pingDenied "{ ping }") =
       [EvRespondResult {| r_Data := None; Errors := [ge] |}] ∧
     ge_Message ge = "denied" ∧
     ge_Extensions ge = {[ "code" := "DIRECTIVE_MIDDLEWARE_ERROR" ]}) ∧
  count isDo (traceOf pingDenied "{ ping }") = 0.
Proof.
  assert (EvMiddleware 1 ["a"] ["a"]
            (Some (IsMiddlewareError {| Code := "UNAUTHORIZED"; Message := "no token" |}))
            ∈ traceOf guarded "{ hello }") as Hglobal by trace_has.
  assert (EvDirective "ping" "auth" (Some (OtherError "denied"))
            ∈ traceOf pingDenied "{ ping }") as Hdirective by trace_has.
  destruct (C7_middleware_error_envelope guarded "{ hello }" []) as [Hmw _].
  destruct (C7_middleware_error_envelope pingDenied "{ ping }" []) as [_ Hdir].
  destruct (Hdir _ _ _ Hdirective) as [Henv Hdo].
  split_and!; [exact (Hmw _ _ _ _ Hglobal)|exact Henv|exact Hdo].
Defined.

Lemma C8_witness :
  AddHandler (NewServeMux []) fieldless =
    ({| middlewares := []; graphQLMiddlewares := ∅; ErrorHandler := None;
        handlers := [fieldless] |}, None) ∧
  AddHandler oneHandler writeOnly =
    (oneHandler,
     Some (OtherError
             "Schema validation error: Schema query must be Object Type but got: nil.")).
Proof.
  destruct (C8_AddHandler_validation (NewServeMux []) fieldless) as [Hskip _].
  destruct (C8_AddHandler_validation oneHandler writeOnly) as [_ Hbuild].
  split.
  - rewrite Hskip by (split; reflexivity). reflexivity.
  - rewrite Hbuild; [reflexivity|]. intros [_ Hm].
    apply (f_equal (lookup "create")) in Hm. vm_compute in Hm. discriminate.
Defined.

(** C10, as stated, fails: [ping] is a query and a mutation and occurs in
    the query text; the directive middleware registered for it fails at its
    first call, and so runs once. *)
Lemma C10_counterexample :
  GetQueries pinger (Some 4) !! "ping" = Some "pinger" ∧
  GetMutations pinger (Some 4) !! "ping" = Some "pinger" ∧
  Contains "{ ping }" "ping" = true ∧
  registered pingDenied "ping" "auth" = true ∧
  count (isDirective "ping" "auth") (traceOf pingDenied "{ ping }") = 1.
Proof. split_and!; vm_compute; reflexivity. Qed.

Lemma C10_witness :
  parseRequest "{ ping }" = Ok {| Query := "{ ping }"; Variables := () |} ∧
  Contains "{ ping }" "ping" = true ∧
  registered pingAllowed "ping" "auth" = true ∧
  count (isDirective "ping" "auth") (traceOf pingAllowed "{ ping }") = 2.
Proof.
  assert (parseRequest "{ ping }" = Ok {| Query := "{ ping }"; Variables := () |})
    as Hparse by reflexivity.
  assert (EvNewSchema (schemaConfigFor (GetQueries pinger None) (GetMutations pinger None))
            ∈ traceOf pingAllowed "{ ping }") as Hcfg by trace_has.
  assert (EvDo {| p_Schema := ["ping"]; RequestString := "{ ping }";
                  VariableValues := (); p_Context := [] |}
            ∈ traceOf pingAllowed "{ ping }") as Hdo by trace_has.
  match type of Hdo with EvDo ?p ∈ _ =>
    destruct (C10_directive_runs_twice pingAllowed "{ ping }" [] _ _ "ping" "auth" p
                Hparse Hcfg) as [_ Htwice]
  end.
  - by exists "pinger".
  - by exists "pinger".
  - split_and!; [done|reflexivity|reflexivity|].
    apply Htwice; [reflexivity|reflexivity|exact Hdo].
Defined.

End Runs.

(** * Further properties of the gateway *)

Section Registration.
Context `{Externals}.

(** X1.  [UseDirective] then lookup: the middleware registered last under
    [(method, directive)] is the one found there, every other registration
    is as before, and the middlewares and handlers are untouched. *)
Theorem UseDirective_lookup (s : ServeMux) (method directive : string)
    (fn : GraphQLMiddlewareFunc) (method' directive' : string) :
  directiveOf (UseDirective s method directive fn) method' directive' =
    (if decide (method' = method ∧ directive' = directive)
     then Some fn else directiveOf s method' directive') ∧
  middlewares (UseDirective s method directive fn) = middlewares s ∧
  handlers (UseDirective s method directive fn) = handlers s.
Proof.
  split; [|done]. unfold directiveOf, UseDirective; simpl.
  destruct (decide (method' = method)) as [->|Hm].
  - rewrite lookup_insert_eq; simpl.
    destruct (decide (directive' = directive)) as [->|Hd].
    + rewrite lookup_insert_eq. by rewrite decide_True.
    + rewrite lookup_insert_ne by done.
      rewrite decide_False by (by intros [_ ?]).
      destruct (graphQLMiddlewares s !! method); simpl; [done|].
      by rewrite lookup_empty.
  - rewrite lookup_insert_ne by done.
    by rewrite decide_False by (by intros [? _]).
Qed.

(** X2.  Registering handlers in turn keeps, in their order, exactly those that
    [AddHandler] accepts, after the handlers already there; a handler that
    is refused neither blocks nor reorders the following ones, and nothing
    else of the gateway changes. *)
Theorem AddHandlers_handlers (s : ServeMux) (hs : list GraphqlHandler) :
  handlers (AddHandlers s hs) = handlers s ++ List.filter (accepted s) hs ∧
  middlewares (AddHandlers s hs) = middlewares s ∧
  graphQLMiddlewares (AddHandlers s hs) = graphQLMiddlewares s ∧
  ErrorHandler (AddHandlers s hs) = ErrorHandler s.
Proof.
  revert s. induction hs as [|h hs IH]; intros s; simpl.
  - by rewrite app_nil_r.
  - destruct (IH (AddHandler s h).1) as (Hh & Hm & Hd & He).
    unfold AddHandlers in *. rewrite Hh, Hm, Hd, He.
    assert (List.filter (accepted (AddHandler s h).1) hs =
            List.filter (accepted s) hs) as -> by done.
    unfold accepted at 2, AddHandler.
    destruct (validateHandler s h); simpl; [done|].
    by rewrite <- app_assoc.
Qed.

End Registration.

Section RequestPath.
Context `{Externals}.











Lemma finalContext_middlewareEvents (r : Request) (ctxs : list Ctx) (rest : list Event) :
  (∀ i ctx ctx' err, EvMiddleware i ctx ctx' err ∉ rest) →
  finalContext r (middlewareEvents 0 (Request_Context r) ctxs ++ rest) =
    lastCtx (Request_Context r) ctxs.
Proof.
  intros Hrest. unfold finalContext.
  rewrite middlewareCalls_app, (middlewareCalls_nil rest) by done.
  rewrite app_nil_r. generalize 0 (Request_Context r).
  induction ctxs as [|ctx' ctxs IH]; intros i ctx; [done|].
  simpl.
  change (middlewareCalls (EvMiddleware i ctx ctx' None :: middlewareEvents (S i) ctx' ctxs))
    with ((i, ctx, ctx', None) :: middlewareCalls (middlewareEvents (S i) ctx' ctxs)).
  simpl. apply IH.
Qed.

(** X7.  Every handler is asked for its connection with the context the
    middleware chain ended with, and the query is executed, at most once,
    with that same context, the decoded query text and variables, and the
    schema that was built from the merged fields. *)
Theorem context_reaches_handlers_and_execution (s : ServeMux) (r : Request)
    (w : World) :
  let tr := (ServeHTTP s r w).2 in
  (∀ i ctx res, EvCreateConnection i ctx res ∈ tr → ctx = finalContext r tr) ∧
  (∀ p, EvDo p ∈ tr →
     ∃ req cfg schema,
       parseRequest r = Ok req ∧ EvNewSchema cfg ∈ tr ∧ NewSchema cfg = Ok schema ∧
       p = {| p_Schema := schema;
              RequestString := Query req;
              VariableValues := Variables req;
              p_Context := finalContext r tr |}) ∧
  count isDo tr ≤ 1.
Proof.
  intros tr. pose proof (ServeHTTP_Run s r w) as HR. fold tr in HR.
  clearbody tr.
  destruct HR.
  2-6: rewrite finalContext_middlewareEvents
    by (intros ???? Hin; trace_elem Hin).
  all: split_and!;
    [ intros i ctx res Hin; trace_elem Hin; by simplify_eq
    | intros p Hin; trace_elem Hin
    | trace_count ].
  simplify_eq. eexists _, _, _. split_and!; [eassumption| |eassumption|reflexivity].
  apply elem_of_app. right. apply elem_of_app. right. by left.
Qed.

Lemma merged_lookup_None_inv
    (list_fields : GraphqlHandler → option Conn → gmap string Field)
    (hcs : list (GraphqlHandler * Conn)) (name : string) :
  ∀ acc,
    merged list_fields acc hcs !! name = None →
    acc !! name = None ∧
    ∀ h c, (h, c) ∈ hcs → list_fields h (Some c) !! name = None.
Proof.
  induction hcs as [|[h c] hcs IH]; intros acc Hm; simpl in Hm.
  - split; [done|]. by intros ?? ?%elem_of_nil.
  - destruct (IH _ Hm) as [[Hh Hacc]%lookup_union_None Hrest].
    split; [done|]. intros h' c' [?|?]%elem_of_cons; [by simplify_eq|by apply Hrest].
Qed.

(** X8.  The schema configuration of a request has a root type exactly for the
    listings that are not all empty: a root that is present is named Query
    or Mutation and has at least one field, and a root is absent only when
    every handler listed no field for it; with no handler registered, both
    roots are absent. *)
Theorem schema_roots (s : ServeMux) (r : Request) (w : World)
    (cfg : SchemaConfig) (root : Root) :
  let tr := (ServeHTTP s r w).2 in
  EvNewSchema cfg ∈ tr →
  match rootOf root cfg with
  | Some object =>
      Name object = match root with QueryRoot => "Query" | MutationRoot => "Mutation" end ∧
      oc_Fields object ≠ ∅
  | None =>
      ∀ i h ctx c, handlers s !! i = Some h →
        EvCreateConnection i ctx (Ok c) ∈ tr → listing root h (Some c) = ∅
  end ∧
  (handlers s = [] → cfg = {| sc_Query := None; sc_Mutation := None |}).
Proof.
  intros tr Hcfg. pose proof (ServeHTTP_Run s r w) as HR. fold tr in HR.
  clearbody tr.
  assert (∀ ctxs cs post,
    tr = middlewareEvents 0 (Request_Context r) ctxs ++
         connectionEvents 0 (lastCtx (Request_Context r) ctxs) cs ++ post →
    (∀ e, e ∈ post → ∀ i ctx c, e ≠ EvCreateConnection i ctx (Ok c)) →
    length cs = length (handlers s) →
    cfg = schemaConfigFor (merged GetQueries ∅ (zip (handlers s) cs))
                          (merged GetMutations ∅ (zip (handlers s) cs)) →
    match rootOf root cfg with
    | Some object =>
        Name object =
          match root with QueryRoot => "Query" | MutationRoot => "Mutation" end ∧
        oc_Fields object ≠ ∅
    | None =>
        ∀ i h ctx c, handlers s !! i = Some h →
          EvCreateConnection i ctx (Ok c) ∈ tr → listing root h (Some c) = ∅
    end ∧
    (handlers s = [] → cfg = {| sc_Query := None; sc_Mutation := None |})) as Hroots.
  { intros ctxs cs post -> Hpost Hlen ->. split.
    - assert (∀ fields : gmap string Field, 0 < size fields → fields ≠ ∅) as Hne
        by (intros fields Hs ->; rewrite map_size_empty in Hs; lia).
      assert (∀ i h ctx c, handlers s !! i = Some h →
                EvCreateConnection i ctx (Ok c)
                  ∈ middlewareEvents 0 (Request_Context r) ctxs ++
                    connectionEvents 0 (lastCtx (Request_Context r) ctxs) cs ++ post →
                (h, c) ∈ zip (handlers s) cs) as Hzip.
      { intros i h ctx c Hh Hc.
        assert (cs !! i = Some c) as Hci.
        { trace_elem Hc; [by simplify_eq|]. by eapply Hpost in Hc. }
        apply list_elem_of_lookup. exists i.
        apply lookup_zip_with_Some. by exists h, c. }
      destruct root; unfold schemaConfigFor; simpl; case_decide as Hsize;
        try (split; [done|by apply Hne]).
      + intros i h ctx c Hh Hc. apply map_empty. intros name.
        assert (merged GetQueries ∅ (zip (handlers s) cs) = ∅) as Hm
          by (apply map_size_empty_iff; lia).
        eapply (merged_lookup_None_inv GetQueries _ name ∅);
          [by rewrite Hm, lookup_empty|by eapply Hzip].
      + intros i h ctx c Hh Hc. apply map_empty. intros name.
        assert (merged GetMutations ∅ (zip (handlers s) cs) = ∅) as Hm
          by (apply map_size_empty_iff; lia).
        eapply (merged_lookup_None_inv GetMutations _ name ∅);
          [by rewrite Hm, lookup_empty|by eapply Hzip].
    - intros Hnone. rewrite Hnone. simpl. unfold schemaConfigFor.
      rewrite map_size_empty. by rewrite !decide_False by lia. }
  destruct HR; trace_elem Hcfg; simplify_eq.
  all: eapply Hroots; [reflexivity| |done|reflexivity].
  all: intros e He ???; intros ->; trace_elem He.
Qed.

Lemma stage_sorted_const (n : nat) (tr : list Event) :
  Forall (λ e, stage e = n) tr →
  StronglySorted (λ e1 e2, stage e1 ≤ stage e2) tr.
Proof.
  induction 1 as [|e tr He Htr IH]; constructor; [done|].
  eapply Forall_impl; [exact Htr|]. intros e' He'; simpl in *. lia.
Qed.

(** The events of a trace whose stages are in order. *)
Ltac stages_sorted :=
  repeat first
    [ apply StronglySorted_app; split_and!
    | apply StronglySorted_cons; split
    | apply SSorted_nil
    | apply (stage_sorted_const 0), Forall_forall; intros ? Hs; trace_elem Hs; by subst
    | apply (stage_sorted_const 1), Forall_forall; intros ? Hs; trace_elem Hs; by subst
    | apply (stage_sorted_const 4), Forall_forall; intros ? Hs; trace_elem Hs; by subst
    | apply (stage_sorted_const 6), Forall_forall; intros ? Hs; trace_elem Hs; by subst
    | apply (stage_sorted_const 7), Forall_forall; intros ? Hs; trace_elem Hs; by subst
    | apply (stage_sorted_const 8), Forall_forall; intros ? Hs; trace_elem Hs; by subst
    | apply Forall_forall; intros ? Hs; trace_elem Hs; subst; simpl; lia
    | intros ?? Hs1 Hs2; trace_elem Hs1; trace_elem Hs2; subst; simpl; lia ].

Lemma Run_stages (s : ServeMux) (r : Request) (tr : list Event) :
  Run s r tr → StronglySorted (λ e1 e2, stage e1 ≤ stage e2) tr.
Proof. destruct 1; stages_sorted. Qed.

(** Two positions of a trace, in order. *)
Lemma before_lookup (tr : list Event) (i j : nat) (e1 e2 : Event) :
  tr !! i = Some e1 → tr !! j = Some e2 → i < j → before e1 e2 tr.
Proof.
  intros Hi Hj Hlt.
  exists (take i tr), (take (j - S i) (drop (S i) tr)), (drop (S j) tr).
  assert (drop (S i) tr !! (j - S i) = Some e2) as Hk.
  { rewrite lookup_drop. by replace (S i + (j - S i)) with j by lia. }
  pose proof (take_drop_middle _ _ _ Hk) as Hmid.
  rewrite drop_drop in Hmid. replace (S i + S (j - S i)) with (S j) in Hmid by lia.
  rewrite Hmid. symmetry. by apply take_drop_middle.
Qed.

(** X9.  The steps of [ServeHTTP] never interleave: of two events of a request,
    the earlier one does not belong to a later step.  So no middleware runs
    once a connection is asked for, no connection is asked for once the
    schema is built, the body is decoded after that, directives run before
    the execution, the response is written after all of it, and connections
    are only released after the response. *)
Theorem stages_in_order (s : ServeMux) (r : Request) (w : World) (e1 e2 : Event) :
  before e1 e2 (ServeHTTP s r w).2 → stage e1 ≤ stage e2.
Proof.
  intros (tr1 & tr2 & tr3 & Htr).
  pose proof (Run_stages _ _ _ (ServeHTTP_Run s r w)) as Hsorted.
  rewrite Htr in Hsorted.
  destruct (proj1 (StronglySorted_app _ _ _) Hsorted) as (_ & _ & Hs2).
  destruct (proj1 (StronglySorted_cons _ _ _) Hs2) as [Hall _].
  eapply Forall_forall in Hall; [exact Hall|].
  apply elem_of_app. right. by left.
Qed.

Lemma append_assoc (s1 s2 s3 : string) : (s1 +:+ s2) +:+ s3 = s1 +:+ s2 +:+ s3.
Proof. induction s1 as [|c s1 IH]; [done|]. by rewrite !append_String, IH. Qed.

(** Occurring in is transitive. *)
Lemma Contains_trans (s1 s2 s3 : string) :
  Contains s1 s2 = true → Contains s2 s3 = true → Contains s1 s3 = true.
Proof.
  rewrite !Contains_spec.
  intros (pre1 & post1 & ->) (pre2 & post2 & ->).
  exists (pre1 +:+ pre2), (post2 +:+ post1). by rewrite !append_assoc.
Qed.

(** X10.  The match of a directive is textual: a directive middleware registered
    for a field name runs whenever the query text contains any word that
    contains this name (a longer field name, an argument, a string literal),
    in every request that reaches execution, whether the query selects the
    field or not. *)
Theorem directive_fires_on_containing_word (s : ServeMux) (r : Request) (w : World)
    (req : GraphqlRequest) (cfg : SchemaConfig) (p : Params)
    (method directive word : string) :
  let tr := (ServeHTTP s r w).2 in
  parseRequest r = Ok req →
  EvNewSchema cfg ∈ tr →
  EvDo p ∈ tr →
  is_Some (rootFields (sc_Query cfg) !! method) ∨
  is_Some (rootFields (sc_Mutation cfg) !! method) →
  registered s method directive = true →
  Contains word method = true →
  Contains (Query req) word = true →
  EvDirective method directive None ∈ tr.
Proof.
  intros tr Hparse Hcfg HDo Hname Hreg Hword Hquery.
  pose proof (ServeHTTP_Run s r w) as HR. fold tr in HR. clearbody tr.
  destruct (Run_executed_inv _ _ _ _ HR HDo)
    as (ctxs & cs & req' & names & calls & rest & Hparse' & Hnames & HD & Htr
        & _ & Hcfgs).
  assert (req' = req) as -> by congruence.
  apply Hcfgs in Hcfg as ->. subst tr.
  match type of Hname with context [schemaConfigFor ?q ?m] =>
    destruct (schemaConfigFor_roots q m) as [Hq Hm] end.
  rewrite Hq, Hm in Hname.
  apply (methodNamesOf_elem _ _ _ _ Hnames) in Hname.
  pose proof (Contains_trans _ _ _ Hquery Hword) as Hc.
  pose proof (proj2 (Dispatch_elem _ _ _ _ method directive HD)
                (conj Hc (conj Hreg Hname))) as Hcall.
  do 2 (apply elem_of_app; right). do 2 right.
  apply elem_of_app. left. apply elem_of_directiveEvents. by eexists _, _.
Qed.

(** ** What the collaborators see *)

Lemma respondResult_world (result : Result) (st : State) :
  ∃ st', respondResult result st = (Some (), st') ∧
    world st' = world st ∧ deferred st' = deferred st ∧
    EvRespondResult result ∈ trace st'.
Proof.
  unfold respondResult, mbind, M_bind, log; simpl.
  eexists; split_and!; [reflexivity..|]; simpl.
  rewrite !elem_of_app, !elem_of_cons. tauto.
Qed.

Lemma middlewareLoop_outcome (ms : list MiddlewareFunc) (r : Request) :
  ∀ i ctx st,
    match middlewareOutcome ms r ctx (world st) with
    | (Ok ctx', w') =>
        ∃ st', middlewareLoop i ms r ctx st = (Some ctx', st') ∧
          world st' = w' ∧ deferred st' = deferred st
    | (Err err, w') =>
        ∃ st', middlewareLoop i ms r ctx st = (None, st') ∧
          world st' = w' ∧ deferred st' = deferred st ∧
          EvRespondResult (errorResult (middlewareEnvelope "MIDDLEWARE_ERROR" err))
            ∈ trace st'
    end.
Proof.
  induction ms as [|m ms IH]; intros i ctx st; simpl.
  - by eexists.
  - unfold mbind, M_bind, call.
    destruct (m ctx r (world st)) as [[ctx' [err|]] w'] eqn:Hm; simpl.
    + eexists. split_and!; [reflexivity..|]. simpl.
      rewrite !elem_of_app, !elem_of_cons. destruct err; tauto.
    + match goal with |- context [middlewareLoop _ _ _ _ ?st0] =>
        specialize (IH (S i) ctx' st0) end.
      simpl in IH. by destruct (middlewareOutcome ms r ctx' w') as [[?|?] ?].
Qed.

Lemma handlerLoop_outcome (hs : list GraphqlHandler) :
  ∀ i ctx queries mutations st,
    match connectOutcome hs ctx (world st) (deferred st).*2 with
    | (None, w', closers) =>
        ∃ fields st', handlerLoop i hs ctx queries mutations st = (Some fields, st') ∧
          world st' = w' ∧ (deferred st').*2 = closers
    | (Some err, w', closers) =>
        ∃ st', handlerLoop i hs ctx queries mutations st = (None, st') ∧
          world st' = w' ∧ (deferred st').*2 = closers ∧
          EvRespondResult
            (errorResult
               (pipelineEnvelope "Failed to create grpc connection: "
                  "GRPC_CONNECT_ERROR" err)) ∈ trace st'
    end.
Proof.
  induction hs as [|h hs IH]; intros i ctx queries mutations st; simpl.
  - by eexists _, _.
  - unfold mbind, M_bind, call.
    destruct (CreateConnection h ctx (world st)) as [[[c closer]|err] w'] eqn:Hc;
      simpl.
    + match goal with |- context [handlerLoop _ _ _ ?q ?m ?st0] =>
        specialize (IH (S i) ctx q m st0) end.
      simpl in IH. exact IH.
    + eexists. split_and!; [reflexivity..|]. simpl.
      rewrite !elem_of_app, !elem_of_cons. tauto.
Qed.

Lemma runDeferred_world (ds : list (nat * (World → World))) :
  ∀ w tr, (runDeferred ds w tr).1 = foldl (λ w closer, closer w) w ds.*2.
Proof. induction ds as [|[i closer] ds IH]; intros w tr; simpl; [done|apply IH]. Qed.

Lemma runDeferred_elem (ds : list (nat * (World → World))) (w : World)
    (tr : list Event) (e : Event) :
  e ∈ tr → e ∈ (runDeferred ds w tr).2.
Proof. rewrite runDeferred_trace. intros He. apply elem_of_app. by left. Qed.

Lemma middlewareOutcome_app (ms1 ms2 : list MiddlewareFunc) (r : Request) :
  ∀ ctx w,
    middlewareOutcome (ms1 ++ ms2) r ctx w =
      match middlewareOutcome ms1 r ctx w with
      | (Ok ctx', w') => middlewareOutcome ms2 r ctx' w'
      | (Err err, w') => (Err err, w')
      end.
Proof.
  induction ms1 as [|m ms1 IH]; intros ctx w; simpl; [done|].
  destruct (m ctx r w) as [[ctx' [err|]] w']; [done|apply IH].
Qed.

Lemma ServeHTTP_middleware_failure (s : ServeMux) (r : Request) (w w' : World)
    (err : error) :
  middlewareOutcome (middlewares s) r (Request_Context r) w = (Err err, w') →
  (ServeHTTP s r w).1 = w' ∧
  EvRespondResult (errorResult (middlewareEnvelope "MIDDLEWARE_ERROR" err))
    ∈ (ServeHTTP s r w).2.
Proof.
  intros Hout.
  set (st0 := {| world := w; deferred := []; ranges := 0; trace := [] |}).
  pose proof (middlewareLoop_outcome (middlewares s) r 0 (Request_Context r) st0)
    as Hm.
  simpl in Hm. rewrite Hout in Hm. destruct Hm as (st' & Hloop & Hw & Hd & Hin).
  assert (ServeHTTP_body s r st0 = (None, st')) as Hbody.
  { unfold ServeHTTP_body. unfold mbind at 1, M_bind at 1. by rewrite Hloop. }
  unfold ServeHTTP. fold st0. rewrite Hbody, Hd. simpl.
  split; [exact Hw|exact Hin].
Qed.

(** X11.  When a global middleware fails, the request leaves the world as
    that middleware left it: besides the middlewares up to the failing one,
    no collaborator is called (no connection, no closer, no execution, no
    observer), and the response is the envelope of that error. *)
Theorem middleware_failure_world (s : ServeMux) (r : Request) (w w' : World)
    (err : error) :
  middlewareOutcome (middlewares s) r (Request_Context r) w = (Err err, w') →
  (ServeHTTP s r w).1 = w' ∧
  EvRespondResult (errorResult (middlewareEnvelope "MIDDLEWARE_ERROR" err))
    ∈ (ServeHTTP s r w).2.
Proof. apply ServeHTTP_middleware_failure. Qed.

(** X3.  The middlewares added with [Use] run after the ones the gateway
    already has, continuing from the context and the world these leave; so
    when one of the earlier middlewares fails, a request to the extended
    gateway ends exactly as on the gateway before [Use]: same world, same
    error envelope, none of the added middlewares is called. *)
Theorem Use_middlewares_run_last (s : ServeMux) (ms : list MiddlewareFunc)
    (r : Request) (w w' : World) (err : error) :
  middlewareOutcome (middlewares s) r (Request_Context r) w = (Err err, w') →
  (∀ ctx w0,
     middlewareOutcome (middlewares (Use s ms)) r ctx w0 =
       match middlewareOutcome (middlewares s) r ctx w0 with
       | (Ok ctx', w1) => middlewareOutcome ms r ctx' w1
       | (Err err', w1) => (Err err', w1)
       end) ∧
  (ServeHTTP (Use s ms) r w).1 = w' ∧
  EvRespondResult (errorResult (middlewareEnvelope "MIDDLEWARE_ERROR" err))
    ∈ (ServeHTTP (Use s ms) r w).2.
Proof.
  intros Hout.
  assert (∀ ctx w0,
     middlewareOutcome (middlewares (Use s ms)) r ctx w0 =
       match middlewareOutcome (middlewares s) r ctx w0 with
       | (Ok ctx', w1) => middlewareOutcome ms r ctx' w1
       | (Err err', w1) => (Err err', w1)
       end) as Happ by (intros; apply middlewareOutcome_app).
  split; [exact Happ|].
  apply ServeHTTP_middleware_failure. by rewrite Happ, Hout.
Qed.

(** X12.  When a handler cannot connect, the world is left as that attempt left
    it, except that the closers of the connections acquired before it have
    run, the last acquired first; nothing is executed, and the response is
    the GRPC_CONNECT_ERROR envelope of that error. *)
Theorem connect_failure_world (s : ServeMux) (r : Request) (w w1 w2 : World)
    (ctx : Ctx) (err : error) (closers : list (World → World)) :
  middlewareOutcome (middlewares s) r (Request_Context r) w = (Ok ctx, w1) →
  connectOutcome (handlers s) ctx w1 [] = (Some err, w2, closers) →
  (ServeHTTP s r w).1 = foldl (λ w closer, closer w) w2 closers ∧
  EvRespondResult
    (errorResult
       (pipelineEnvelope "Failed to create grpc connection: "
          "GRPC_CONNECT_ERROR" err)) ∈ (ServeHTTP s r w).2.
Proof.
  intros Hout Hconn.
  set (st0 := {| world := w; deferred := []; ranges := 0; trace := [] |}).
  pose proof (middlewareLoop_outcome (middlewares s) r 0 (Request_Context r) st0)
    as Hm.
  simpl in Hm. rewrite Hout in Hm. destruct Hm as (st1 & Hloop & Hw & Hd).
  pose proof (handlerLoop_outcome (handlers s) 0 ctx ∅ ∅ st1) as Hh.
  rewrite Hw, Hd in Hh. simpl in Hh. rewrite Hconn in Hh.
  destruct Hh as (st2 & Hloop2 & Hw2 & Hd2 & Hin).
  assert (ServeHTTP_body s r st0 = (None, st2)) as Hbody.
  { unfold ServeHTTP_body. unfold mbind at 1, M_bind at 1. rewrite Hloop.
    unfold mbind at 1, M_bind at 1. by rewrite Hloop2. }
  unfold ServeHTTP. fold st0. rewrite Hbody.
  split.
  - by rewrite runDeferred_world, Hw2, Hd2.
  - by apply runDeferred_elem.
Qed.

End RequestPath.

(** * The further properties on the small gateway *)

Section MoreRuns.
#[local] Existing Instance Demo.types.
#[local] Existing Instance Demo.externals.
Import Demo.

Ltac trace_has :=
  vm_compute; repeat first [ apply list_elem_of_here | apply list_elem_of_further ].


Lemma schema_roots_witness :
  EvNewSchema {| sc_Query := None; sc_Mutation := None |}
    ∈ traceOf fieldlessOnly "{ hello }" ∧
  (∀ i h ctx c, handlers fieldlessOnly !! i = Some h →
     EvCreateConnection i ctx (Ok c) ∈ traceOf fieldlessOnly "{ hello }" →
     GetQueries h (Some c) = ∅).
Proof.
  assert (EvNewSchema {| sc_Query := None; sc_Mutation := None |}
            ∈ traceOf fieldlessOnly "{ hello }") as Hcfg by trace_has.
  split; [exact Hcfg|].
  exact (proj1 (schema_roots fieldlessOnly "{ hello }" [] _ QueryRoot Hcfg)).
Defined.

Lemma stages_in_order_witness :
  before (EvCreateConnection 0 [] (Ok 1)) (EvClose 0) (traceOf oneHandler "{ hello }") ∧
  stage (EvCreateConnection 0 [] (Ok 1)) ≤ stage (EvClose 0).
Proof.
  assert (before (EvCreateConnection 0 [] (Ok 1)) (EvClose 0)
            (traceOf oneHandler "{ hello }")) as Hbefore.
  { apply (before_lookup _ 0 9); [vm_compute; reflexivity..|lia]. }
  split; [done|].
  exact (stages_in_order oneHandler "{ hello }" [] _ _ Hbefore).
Defined.

Lemma directive_fires_on_containing_word_witness :
  Contains "researcher" "search" = true ∧
  Contains "{ researcher }" "researcher" = true ∧
  EvDirective "search" "auth" None ∈ traceOf searchAllowed "{ researcher }".
Proof.
  assert (parseRequest "{ researcher }" =
            Ok {| Query := "{ researcher }"; Variables := () |}) as Hparse
    by reflexivity.
  assert (EvNewSchema
            (schemaConfigFor (GetQueries starwars None) (GetMutations starwars None))
            ∈ traceOf searchAllowed "{ researcher }") as Hcfg by trace_has.
  assert (EvDo {| p_Schema := (map_to_list (GetQueries starwars None)).*1;
                  RequestString := "{ researcher }";
                  VariableValues := ();
                  p_Context := [] |}
            ∈ traceOf searchAllowed "{ researcher }") as Hdo by trace_has.
  split_and!; [reflexivity..|].
  match type of Hdo with EvDo ?p ∈ _ =>
    apply (directive_fires_on_containing_word searchAllowed "{ researcher }" []
             _ _ p "search" "auth" "researcher" Hparse Hcfg Hdo)
  end.
  - left. by exists "starwars".
  - reflexivity.
  - reflexivity.
  - reflexivity.
Defined.

Lemma middleware_failure_world_witness :
  middlewareOutcome (middlewares guarded) "{ hello }" [] [] =
    (Err (IsMiddlewareError {| Code := "UNAUTHORIZED"; Message := "no token" |}),
     ["tag a"; "unauthorized"]) ∧
  (ServeHTTP guarded "{ hello }" []).1 = ["tag a"; "unauthorized"].
Proof.
  assert (middlewareOutcome (middlewares guarded) "{ hello }"
            (Request_Context "{ hello }") [] =
          (Err (IsMiddlewareError {| Code := "UNAUTHORIZED"; Message := "no token" |}),
           ["tag a"; "unauthorized"])) as Hout by reflexivity.
  split; [exact Hout|].
  exact (proj1 (middleware_failure_world guarded "{ hello }" [] _ _ Hout)).
Defined.

Lemma Use_middlewares_run_last_witness :
  middlewareOutcome (middlewares guarded) "{ hello }" [] [] =
    (Err (IsMiddlewareError {| Code := "UNAUTHORIZED"; Message := "no token" |}),
     ["tag a"; "unauthorized"]) ∧
  (ServeHTTP (Use guarded [tag "z"]) "{ hello }" []).1 = ["tag a"; "unauthorized"].
Proof.
  assert (middlewareOutcome (middlewares guarded) "{ hello }"
            (Request_Context "{ hello }") [] =
          (Err (IsMiddlewareError {| Code := "UNAUTHORIZED"; Message := "no token" |}),
           ["tag a"; "unauthorized"])) as Hout by reflexivity.
  split; [exact Hout|].
  exact (proj1 (proj2 (Use_middlewares_run_last guarded [tag "z"] "{ hello }" []
                         _ _ Hout))).
Defined.

Lemma connect_failure_world_witness :
  connectOutcome (handlers secondFails) [] [] [] =
    (Some (OtherError "dial refused"), ["dial 1"; "dial 3"],
     [λ w : list string, w ++ ["close 1"]]) ∧
  (ServeHTTP secondFails "{ hello }" []).1 = ["dial 1"; "dial 3"; "close 1"].
Proof.
  assert (middlewareOutcome (middlewares secondFails) "{ hello }"
            (Request_Context "{ hello }") [] = (Ok [], [])) as Hout by reflexivity.
  assert (connectOutcome (handlers secondFails) [] [] [] =
            (Some (OtherError "dial refused"), ["dial 1"; "dial 3"],
             [λ w : list string, w ++ ["close 1"]])) as Hconn by reflexivity.
  split; [exact Hconn|].
  exact (proj1 (connect_failure_world secondFails "{ hello }" [] _ _ _ _ _ Hout Hconn)).
Defined.

End MoreRuns.
